(** * Force-directed graph layout of the knowledge-graph explorer

    A shallow embedding of [src/components/graph/graph-core.ts] (types,
    constants, [createInitialNodes], [createNodeMap], [resolveLinks]) and of
    the simulation layer of [src/components/graph/graph-view.tsx] (link
    pre-resolution, [tick], [handlePointerMove]).

    JavaScript numbers are kept abstract behind the interface [Num]: every
    definition is written once, with the operations in the order the source
    performs them, and is then read at two instances,
    - [float] (IEEE 754 binary64, what the program really runs on), where the
      definitions evaluate, and
    - [R] (exact real arithmetic), where the numeric invariants are proved.
    Statements that do not depend on arithmetic are proved for every
    instance.  Numeric statements are meant in exact arithmetic; a run on
    [float] that refutes one does so by a margin far above rounding. *)

From Stdlib Require Import ZArith QArith Reals Lra Lia Floats.
From Stdlib Require Uint63.
From stdpp Require Import base option list sorting gmap strings pretty.

Close Scope Q_scope.

(** ** Numbers *)

Class Num (F : Type) := {
  lit : Q → F;                 (* a numeric literal of the source *)
  add : F → F → F;
  sub : F → F → F;
  mul : F → F → F;
  div : F → F → F;
  fsqrt : F → F;               (* Math.sqrt *)
  fmax : F → F → F;            (* Math.max *)
  fmin : F → F → F;            (* Math.min *)
  gtb : F → F → bool;          (* a > b *)
  truthy : F → bool;           (* ToBoolean: false on 0 and NaN *)
  ceilZ : F → Z;               (* Math.ceil, read as an integer *)
}.

Declare Scope num_scope.
Delimit Scope num_scope with num.
Infix "+" := add : num_scope.
Infix "-" := sub : num_scope.
Infix "*" := mul : num_scope.
Infix "/" := div : num_scope.

(** ** Types of graph-core.ts *)

(** [id: string | number]; numeric ids are integers. *)
Inductive Id :=
  | IdStr (s : string)
  | IdNum (n : Z).

#[global] Instance Id_eq_dec : EqDecision Id.
Proof. solve_decision. Defined.

(** [String(id)]. *)
Definition js_String (i : Id) : string :=
  match i with
  | IdStr s => s
  | IdNum n => pretty n
  end.

(** [a === b] on ids: same type and same value, no coercion. *)
Definition strict_eq (a b : Id) : bool := bool_decide (a = b).

(** [Record<string, unknown>], values kept in their printed form. *)
Definition Props := list (string * string).

Record GraphNode := mkGraphNode {
  node_id : Id;
  label : option string;
  properties : option Props;
}.

Record GraphLink := mkGraphLink {
  link_id : Id;
  source : Id;
  target : Id;
  link_type : option string;
  link_properties : option Props;
}.

Record GraphResponse := mkGraphResponse {
  nodes : list GraphNode;
  links : list GraphLink;
}.

(** [SimNode = GraphNode & { x, y, vx, vy }]. *)
Record SimNode (F : Type) := mkSimNode {
  node : GraphNode;
  x : F;
  y : F;
  vx : F;
  vy : F;
}.
Arguments mkSimNode {F}.
Arguments node {F}.
Arguments x {F}.
Arguments y {F}.
Arguments vx {F}.
Arguments vy {F}.

Record ResolvedLink (F : Type) := mkResolvedLink {
  rl_link : GraphLink;
  rl_source : SimNode F;
  rl_target : SimNode F;
}.
Arguments mkResolvedLink {F}.
Arguments rl_link {F}.
Arguments rl_source {F}.
Arguments rl_target {F}.

(** [draggedIdRef.current: string | number | null]. *)
Definition DragId := option Id.

(** [!draggedIdRef.current]: null, the number 0 and the empty string. *)
Definition falsy (d : DragId) : bool :=
  match d with
  | None => true
  | Some (IdNum n) => bool_decide (n = 0%Z)
  | Some (IdStr s) => bool_decide (s = EmptyString)
  end.

Section Core.
Context {F : Type} `{Num F}.
Local Open Scope num_scope.

(** ** Layout and simulation constants *)

Definition WIDTH : F := lit 960.
Definition HEIGHT : F := lit 540.
Definition REPEL_STRENGTH : F := lit 1500.
Definition LINK_DISTANCE : F := lit 220.
Definition SPRING_STRENGTH : F := lit 0.02.
Definition CENTER_STRENGTH : F := lit 0.005.
Definition DAMPING : F := lit 0.92.
Definition DT : F := lit 0.016.
Definition MAX_VELOCITY : F := lit 35.
Definition BOUNDS_MARGIN : F := lit 4.

Definition ofZ (z : Z) : F := lit (Qmake z 1).

(** ** createInitialNodes

    [rnd k] is what the k-th call of [Math.random()] returns; node [index]
    makes calls [2*index] and [2*index + 1].  [cols], [rows], [col] and
    [row] hold integers in the source and are integers here. *)

Definition marginX : F := lit 16.
Definition marginY : F := lit 16.
Definition usableWidth : F := WIDTH - marginX * lit 2.
Definition usableHeight : F := HEIGHT - marginY * lit 2.
Definition aspect : F := usableWidth / usableHeight.

Definition grid_cols (count : nat) : Z :=
  Z.max 1 (ceilZ (fsqrt (ofZ (Z.of_nat count) * aspect))).
Definition grid_rows (count : nat) : Z :=
  Z.max 1 (ceilZ (ofZ (Z.of_nat count) / ofZ (grid_cols count))).
Definition cellWidth (count : nat) : F :=
  if (1 <? grid_cols count)%Z then usableWidth / ofZ (grid_cols count - 1) else lit 0.
Definition cellHeight (count : nat) : F :=
  if (1 <? grid_rows count)%Z then usableHeight / ofZ (grid_rows count - 1) else lit 0.

Definition place (rnd : nat → F) (count : nat) (index : nat) (n : GraphNode)
  : SimNode F :=
  let col := (Z.of_nat index mod grid_cols count)%Z in
  let row := (Z.of_nat index / grid_cols count)%Z in
  let baseX := marginX + ofZ col * cellWidth count in
  let baseY := marginY + ofZ row * cellHeight count in
  let jitterX := cellWidth count * lit 0.2 * (rnd (2 * index)%nat - lit 0.5) in
  let jitterY := cellHeight count * lit 0.2 * (rnd (2 * index + 1)%nat - lit 0.5) in
  mkSimNode n (baseX + jitterX) (baseY + jitterY) (lit 0) (lit 0).

Definition createInitialNodes (rnd : nat → F) (data : GraphResponse)
  : list (SimNode F) :=
  if bool_decide (length (nodes data) = 0%nat) then []
  else imap (place rnd (length (nodes data))) (nodes data).

(** ** createNodeMap and resolveLinks

    [new Map(entries)] inserts the entries from left to right, so of two
    nodes with the same key the later one stays. *)

Definition createNodeMap (ns : list (SimNode F)) : gmap string (SimNode F) :=
  foldl (λ m n, <[js_String (node_id (node n)) := n]> m) ∅ ns.

Definition resolve_one (nodeMap : gmap string (SimNode F)) (l : GraphLink)
  : option (ResolvedLink F) :=
  match nodeMap !! js_String (source l), nodeMap !! js_String (target l) with
  | Some s, Some t => Some (mkResolvedLink l s t)
  | _, _ => None
  end.

(** [.map(...).filter(Boolean)] keeps the non-null entries in order. *)
Definition resolveLinks (data : option GraphResponse)
  (nodeMap : gmap string (SimNode F)) : list (ResolvedLink F) :=
  match data with
  | None => []
  | Some d => omap (resolve_one nodeMap) (links d)
  end.

(** ** Link pre-resolution of useGraphSimulation *)

Definition indexById (ns : list GraphNode) : gmap string nat :=
  foldl (λ m p, <[js_String (node_id p.2) := p.1]> m) ∅ (imap pair ns).

Definition preresolve_one (idx : gmap string nat) (l : GraphLink)
  : option (nat * nat) :=
  match idx !! js_String (source l), idx !! js_String (target l) with
  | Some sourceIndex, Some targetIndex =>
      if bool_decide (sourceIndex = targetIndex) then None
      else Some (sourceIndex, targetIndex)
  | _, _ => None
  end.

Definition preresolveLinks (data : GraphResponse) : list (nat * nat) :=
  omap (preresolve_one (indexById (nodes data))) (links data).

(** ** tick *)

(** [node.id === draggingId]. *)
Definition is_dragged (draggingId : DragId) (n : SimNode F) : bool :=
  match draggingId with
  | Some d => strict_eq (node_id (node n)) d
  | None => false
  end.

Definition add_vel (ax ay : F) (n : SimNode F) : SimNode F :=
  mkSimNode (node n) (x n) (y n) (vx n + ax) (vy n + ay).
Definition sub_vel (ax ay : F) (n : SimNode F) : SimNode F :=
  mkSimNode (node n) (x n) (y n) (vx n - ax) (vy n - ay).

(** The impulse [(fx * DT, fy * DT)] of the pair loop body. *)
Definition repel_impulse (nodeA nodeB : SimNode F) : F * F :=
  let dx := x nodeB - x nodeA in
  let dy := y nodeB - y nodeA in
  let distSq := dx * dx + dy * dy + lit 0.01 in
  let force := REPEL_STRENGTH / distSq in
  let dist := fsqrt distSq in
  let invDist := lit 1 / dist in
  let dx := dx * invDist in
  let dy := dy * invDist in
  let fx := force * dx in
  let fy := force * dy in
  (fx * DT, fy * DT).

(** Body of the inner loop of phase 1, on [updated[i]] and [updated[j]];
    the loop bounds keep both indices inside the array. *)
Definition repel_pair (draggingId : DragId) (i j : nat)
  (updated : list (SimNode F)) : list (SimNode F) :=
  match updated !! i, updated !! j with
  | Some nodeA, Some nodeB =>
      let imp := repel_impulse nodeA nodeB in
      let updated :=
        if negb (is_dragged draggingId nodeA)
        then alter (sub_vel imp.1 imp.2) i updated else updated in
      if negb (is_dragged draggingId nodeB)
      then alter (add_vel imp.1 imp.2) j updated else updated
  | _, _ => updated
  end.

Definition repel_row (draggingId : DragId) (updated : list (SimNode F)) (i : nat)
  : list (SimNode F) :=
  foldl (λ u j, repel_pair draggingId i j u) updated
        (seq (S i) (length updated - S i)).

Definition repel_all (draggingId : DragId) (updated : list (SimNode F))
  : list (SimNode F) :=
  foldl (repel_row draggingId) updated (seq 0 (length updated)).

(** The impulse [(fx * DT, fy * DT)] of the link loop body. *)
Definition spring_impulse (src tgt : SimNode F) : F * F :=
  let dx := x tgt - x src in
  let dy := y tgt - y src in
  let dist0 := fsqrt (dx * dx + dy * dy) in
  let dist := if truthy dist0 then dist0 else lit 1 in
  let displacement := dist - LINK_DISTANCE in
  let force := SPRING_STRENGTH * displacement in
  let invDist := lit 1 / dist in
  let dx := dx * invDist in
  let dy := dy * invDist in
  let fx := force * dx in
  let fy := force * dy in
  (fx * DT, fy * DT).

(** Body of the loop of phase 2.  Reading a field of [updated[k]] for [k]
    outside the array throws; that is [None]. *)
Definition spring_link (draggingId : DragId) (l : nat * nat)
  (updated : list (SimNode F)) : option (list (SimNode F)) :=
  match updated !! l.1, updated !! l.2 with
  | Some src, Some tgt =>
      let imp := spring_impulse src tgt in
      let updated :=
        if negb (is_dragged draggingId src)
        then alter (add_vel imp.1 imp.2) l.1 updated else updated in
      Some (if negb (is_dragged draggingId tgt)
            then alter (sub_vel imp.1 imp.2) l.2 updated else updated)
  | _, _ => None
  end.

Fixpoint spring_all (draggingId : DragId) (ls : list (nat * nat))
  (updated : list (SimNode F)) : option (list (SimNode F)) :=
  match ls with
  | [] => Some updated
  | l :: ls' =>
      match spring_link draggingId l updated with
      | Some updated' => spring_all draggingId ls' updated'
      | None => None
      end
  end.

Definition clamp_speed (n : SimNode F) : SimNode F :=
  let speedSq := vx n * vx n + vy n * vy n in
  if gtb speedSq (MAX_VELOCITY * MAX_VELOCITY) then
    let speed := fsqrt speedSq in
    let scale := MAX_VELOCITY / speed in
    mkSimNode (node n) (x n) (y n) (vx n * scale) (vy n * scale)
  else n.

(** Body of the loop of phase 3. *)
Definition settle (draggingId : DragId) (n : SimNode F) : SimNode F :=
  if is_dragged draggingId n then
    mkSimNode (node n) (x n) (y n) (vx n * DAMPING) (vy n * DAMPING)
  else
    let centerX := WIDTH / lit 2 in
    let centerY := HEIGHT / lit 2 in
    let dx := centerX - x n in
    let dy := centerY - y n in
    let n := add_vel (dx * CENTER_STRENGTH * DT) (dy * CENTER_STRENGTH * DT) n in
    let n := mkSimNode (node n) (x n) (y n) (vx n * DAMPING) (vy n * DAMPING) in
    let n := clamp_speed n in
    let n := mkSimNode (node n) (x n + vx n) (y n + vy n) (vx n) (vy n) in
    mkSimNode (node n)
      (fmax BOUNDS_MARGIN (fmin (WIDTH - BOUNDS_MARGIN) (x n)))
      (fmax BOUNDS_MARGIN (fmin (HEIGHT - BOUNDS_MARGIN) (y n)))
      (vx n) (vy n).

(** One tick: the new value of [nodesRef.current]. *)
Definition tick (ls : list (nat * nat)) (draggingId : DragId)
  (current : list (SimNode F)) : option (list (SimNode F)) :=
  if bool_decide (length current = 0%nat) then Some current
  else
    match spring_all draggingId ls (repel_all draggingId current) with
    | Some updated => Some (settle draggingId <$> updated)
    | None => None
    end.

Fixpoint ticks (k : nat) (ls : list (nat * nat)) (draggingId : DragId)
  (current : list (SimNode F)) : option (list (SimNode F)) :=
  match k with
  | O => Some current
  | S k' =>
      match tick ls draggingId current with
      | Some next => ticks k' ls draggingId next
      | None => None
      end
  end.

(** ** handlePointerMove *)

Record PointerEvent := mkPointerEvent { clientX : F; clientY : F }.
Record DOMRect := mkDOMRect {
  rect_left : F; rect_top : F; rect_width : F; rect_height : F;
}.

Definition pointer_x (e : PointerEvent) (rect : DOMRect) : F :=
  (clientX e - rect_left rect) / rect_width rect * WIDTH.
Definition pointer_y (e : PointerEvent) (rect : DOMRect) : F :=
  (clientY e - rect_top rect) / rect_height rect * HEIGHT.

(** [svg] is [None] while [svgRef.current] is null. *)
Definition handlePointerMove (draggedId : DragId) (svg : option DOMRect)
  (e : PointerEvent) (current : list (SimNode F)) : list (SimNode F) :=
  if falsy draggedId then current
  else match svg with
  | None => current
  | Some rect =>
      if bool_decide (length current = 0%nat) then current
      else
        (λ n, if is_dragged draggedId n
              then mkSimNode (node n) (pointer_x e rect) (pointer_y e rect)
                             (lit 0) (lit 0)
              else n) <$> current
  end.

(** Speed of a node, [sqrt(vx^2 + vy^2)]. *)
Definition speed (n : SimNode F) : F := fsqrt (vx n * vx n + vy n * vy n).

(** ** What the claims are stated with *)

(** [lo <= v <= hi], decided with the comparison of the number type. *)
Definition within (lo hi v : F) : bool := negb (gtb lo v) && negb (gtb v hi).

Definition in_bounds (n : SimNode F) : bool :=
  within BOUNDS_MARGIN (WIDTH - BOUNDS_MARGIN) (x n)
  && within BOUNDS_MARGIN (HEIGHT - BOUNDS_MARGIN) (y n).

(** The link indices a tick can use on an array of [n] nodes. *)
Definition links_ok (n : nat) (ls : list (nat * nat)) : Prop :=
  Forall (λ l, l.1 < n ∧ l.2 < n)%nat ls.

(** Everything of a node but its velocity. *)
Definition frame (n : SimNode F) : GraphNode * F * F := (node n, x n, y n).

(** ** The tick phase by phase, as a function of the previous array

    The unordered pairs in the order the nested loops visit them. *)
Definition all_pairs (n : nat) : list (nat * nat) :=
  flat_map (λ i, pair i <$> seq (S i) (n - S i)) (seq 0 n).

(** What pair [p] of the previous array [prev] does to node [k], whose
    current state is [n]. *)
Definition pair_effect (repel : SimNode F → SimNode F → F * F)
  (draggingId : DragId) (prev : list (SimNode F)) (k : nat)
  (n : SimNode F) (p : nat * nat) : SimNode F :=
  match prev !! p.1, prev !! p.2 with
  | Some nodeA, Some nodeB =>
      let imp := repel nodeA nodeB in
      if is_dragged draggingId n then n
      else if bool_decide (k = p.1) then sub_vel imp.1 imp.2 n
      else if bool_decide (k = p.2) then add_vel imp.1 imp.2 n
      else n
  | _, _ => n
  end.

(** What link [l] does to node [k]. *)
Definition link_effect (draggingId : DragId) (prev : list (SimNode F)) (k : nat)
  (n : SimNode F) (l : nat * nat) : SimNode F :=
  match prev !! l.1, prev !! l.2 with
  | Some src, Some tgt =>
      let imp := spring_impulse src tgt in
      if is_dragged draggingId n then n
      else
        let n := if bool_decide (k = l.1) then add_vel imp.1 imp.2 n else n in
        if bool_decide (k = l.2) then sub_vel imp.1 imp.2 n else n
  | _, _ => n
  end.

(** Node [k] after phases 1 and 2, every impulse taken from [prev]. *)
Definition before_settle (repel : SimNode F → SimNode F → F * F)
  (ls : list (nat * nat)) (draggingId : DragId) (prev : list (SimNode F))
  (k : nat) (n : SimNode F) : SimNode F :=
  foldl (link_effect draggingId prev k)
        (foldl (pair_effect repel draggingId prev k) n (all_pairs (length prev)))
        ls.

(** Phases 1, 2, 3 on each node. *)
Definition tick_phases (repel : SimNode F → SimNode F → F * F)
  (ls : list (nat * nat)) (draggingId : DragId) (prev : list (SimNode F))
  : list (SimNode F) :=
  imap (λ k n, settle draggingId (before_settle repel ls draggingId prev k n)) prev.

(** The repulsion impulse in the words of the specification: magnitude
    [REPEL_STRENGTH / (|d|^2 + 0.01)] along the unit vector [d / |d|]. *)
Definition claimed_repel_impulse (nodeA nodeB : SimNode F) : F * F :=
  let dx := x nodeB - x nodeA in
  let dy := y nodeB - y nodeA in
  let magnitude := REPEL_STRENGTH / (dx * dx + dy * dy + lit 0.01) in
  let len := fsqrt (dx * dx + dy * dy) in
  let ux := dx * (lit 1 / len) in
  let uy := dy * (lit 1 / len) in
  (magnitude * ux * DT, magnitude * uy * DT).

Definition tick_claimed := tick_phases claimed_repel_impulse.

End Core.

Arguments PointerEvent : clear implicits.
Arguments DOMRect : clear implicits.

(** ** The binary64 instance: the numbers of the running program *)

Module Float64.

Definition of_Z (z : Z) : float :=
  match z with
  | Z0 => PrimFloat.zero
  | Zpos _ => PrimFloat.of_uint63 (Uint63.of_Z z)
  | Zneg p => PrimFloat.opp (PrimFloat.of_uint63 (Uint63.of_Z (Zpos p)))
  end.

(** A decimal literal [n/d] denotes the double nearest to it, which is what
    the correctly rounded quotient of the two integers gives. *)
Definition of_literal (q : Q) : float := PrimFloat.div (of_Z (Qnum q)) (of_Z (Zpos (Qden q))).

Definition is_nan (a : float) : bool := negb (PrimFloat.eqb a a).

(** [Math.max]: NaN if an argument is NaN; [+0] is above [-0]. *)
Definition max (a b : float) : float :=
  if is_nan a || is_nan b then PrimFloat.nan
  else if PrimFloat.ltb a b then b
  else if PrimFloat.ltb b a then a
  else if PrimFloat.get_sign a then b else a.

(** [Math.min]: NaN if an argument is NaN; [-0] is below [+0]. *)
Definition min (a b : float) : float :=
  if is_nan a || is_nan b then PrimFloat.nan
  else if PrimFloat.ltb a b then a
  else if PrimFloat.ltb b a then b
  else if PrimFloat.get_sign a then a else b.

Definition to_boolean (a : float) : bool :=
  negb (is_nan a) && negb (PrimFloat.eqb a PrimFloat.zero).

(** [Math.ceil] of a finite double, as an integer ([0] on NaN and the
    infinities, which no call of the layout produces). *)
Definition ceil (a : float) : Z :=
  match Prim2SF a with
  | S754_finite s m e =>
      let mag := Zpos m in
      match e with
      | Zneg k =>
          if s then (- (mag / 2 ^ Zpos k))%Z
          else (- ((- mag) / 2 ^ Zpos k))%Z
      | _ => if s then (- (mag * 2 ^ e))%Z else (mag * 2 ^ e)%Z
      end
  | _ => 0%Z
  end.

#[global] Instance float_Num : Num float := {|
  lit := of_literal;
  add := PrimFloat.add;
  sub := PrimFloat.sub;
  mul := PrimFloat.mul;
  div := PrimFloat.div;
  fsqrt := PrimFloat.sqrt;
  fmax := max;
  fmin := min;
  gtb a b := PrimFloat.ltb b a;
  truthy := to_boolean;
  ceilZ := ceil;
|}.

End Float64.

(** ** The exact instance: real arithmetic *)

Module Exact.

(** The least integer not below [a]. *)
Definition ceil (a : R) : Z := (1 - up (- a))%Z.

#[global] Instance R_Num : Num R := {|
  lit := Q2R;
  add := Rplus;
  sub := Rminus;
  mul := Rmult;
  div := Rdiv;
  fsqrt := R_sqrt.sqrt;
  fmax := Rmax;
  fmin := Rmin;
  gtb a b := if Rlt_dec b a then true else false;
  truthy a := if Req_dec_T a 0 then false else true;
  ceilZ := ceil;
|}.

End Exact.


(** ** The rest of graph-core.ts: label colours and search *)

Definition CHART_COLORS : list string :=
  ["var(--chart-1)"; "var(--chart-2)"; "var(--chart-3)"; "var(--chart-4)";
   "var(--chart-5)"].

(** [.filter((label) => Boolean(label))] on an optional string: undefined
    and the empty string go. *)
Definition truthy_label (l : option string) : option string :=
  match l with
  | Some s => if bool_decide (s = EmptyString) then None else Some s
  | None => None
  end.

(** [Array.from(new Set(xs))]: the first occurrences, in order. *)
Definition set_order (xs : list string) : list string :=
  foldl (λ acc x, if bool_decide (x ∈ acc) then acc else acc ++ [x]) [] xs.

(** The order of [.sort()] without comparator: code units, lexicographic. *)
Definition string_le (a b : string) : Prop := String.leb a b = true.

#[global] Instance string_le_dec : RelDecision string_le.
Proof. intros a b. unfold string_le. apply _. Defined.

(** [.sort()] on distinct strings: the one sorted arrangement. *)
Definition js_sort (xs : list string) : list string := merge_sort string_le xs.

Definition sorted_labels (data : GraphResponse) : list string :=
  js_sort (set_order (omap (λ n, truthy_label (label n)) (nodes data))).

(** [CHART_COLORS[index % CHART_COLORS.length]]; the index is in range. *)
Definition chart_color (index : nat) : string :=
  default EmptyString (CHART_COLORS !! (index mod length CHART_COLORS)%nat).

Definition buildLabelColorMap (data : option GraphResponse) : gmap string string :=
  match data with
  | None => ∅
  | Some d =>
      foldl (λ (m : gmap string string) p, <[p.2 := chart_color p.1]> m) ∅
            (imap pair (sorted_labels d))
  end.

(** [s.includes(sub)]. *)
Fixpoint includes (s sub : string) : bool :=
  String.prefix sub s
  || match s with
     | EmptyString => false
     | String _ s' => includes s' sub
     end.

Section Search.
(** [String.prototype.toLowerCase] and [String.prototype.trim] of the
    host. *)
Variable toLowerCase : string → string.
Variable trim : string → string.

Definition nodeMatchesSearchTerm (n : GraphNode) (normalizedSearch : string) : bool :=
  if bool_decide (normalizedSearch = EmptyString) then false
  else if includes (toLowerCase (js_String (node_id n))) normalizedSearch then true
  else if match label n with
          | Some l => negb (bool_decide (l = EmptyString))
                      && includes (toLowerCase l) normalizedSearch
          | None => false
          end then true
  else match properties n with
       | Some ps =>
           existsb (λ kv, includes (toLowerCase (kv.1 ++ " " ++ kv.2)) normalizedSearch) ps
       | None => false
       end.

(** [searchTerm.trim().toLowerCase()] of GraphView. *)
Definition normalize_search (searchTerm : string) : string :=
  toLowerCase (trim searchTerm).


(** ** Selection and dimming of GraphCanvas and GraphSidePanel *)

Context {F : Type}.

Inductive SelectedEntity :=
  | SelNode (n : SimNode F)
  | SelLink (l : GraphLink) (s t : SimNode F).

(** [String(a) === String(b)]. *)
Definition same_id (a b : Id) : bool := bool_decide (js_String a = js_String b).

Definition isSelectedLink (selected : option SelectedEntity) (link : GraphLink) : bool :=
  match selected with
  | Some (SelLink l _ _) => same_id (link_id l) (link_id link)
  | _ => false
  end.

(** [Boolean(selected) || normalizedSearch.length > 0]. *)
Definition hasFocus (selected : option SelectedEntity) (normalizedSearch : string) : bool :=
  bool_decide (is_Some selected) || negb (bool_decide (normalizedSearch = EmptyString)).

Definition touchesSelectedNode (selected : option SelectedEntity)
  (r : ResolvedLink F) : bool :=
  match selected with
  | Some (SelNode n) =>
      same_id (node_id (node (rl_source r))) (node_id (node n))
      || same_id (node_id (node (rl_target r))) (node_id (node n))
  | _ => false
  end.

Definition isDimmedLink (selected : option SelectedEntity) (normalizedSearch : string)
  (r : ResolvedLink F) : bool :=
  let sourceMatchesSearch := nodeMatchesSearchTerm (node (rl_source r)) normalizedSearch in
  let targetMatchesSearch := nodeMatchesSearchTerm (node (rl_target r)) normalizedSearch in
  let touchesSearch := sourceMatchesSearch || targetMatchesSearch in
  let isRelevantLink :=
    isSelectedLink selected (rl_link r) || touchesSelectedNode selected r
    || touchesSearch in
  hasFocus selected normalizedSearch && negb isRelevantLink.

Definition isSelectedNode (selected : option SelectedEntity) (n : SimNode F) : bool :=
  match selected with
  | Some (SelNode m) => same_id (node_id (node m)) (node_id (node n))
  | _ => false
  end.

Definition isDimmed (selected : option SelectedEntity) (normalizedSearch : string)
  (n : SimNode F) : bool :=
  hasFocus selected normalizedSearch
  && negb (isSelectedNode selected n)
  && negb (nodeMatchesSearchTerm (node n) normalizedSearch).

(** The click on a search match in the side panel: the new selection. *)
Definition select_match (sims : list (SimNode F)) (g : GraphNode)
  (selected : option SelectedEntity) : option SelectedEntity :=
  match List.find (λ n, same_id (node_id (node n)) (node_id g)) sims with
  | Some m => Some (SelNode m)
  | None => selected
  end.

(** [handleNodePointerDown]: the new dragged id and the new selection. *)
Definition handleNodePointerDown (n : SimNode F) : DragId * option SelectedEntity :=
  (Some (node_id (node n)), Some (SelNode n)).

(** [handlePointerUp], also bound to pointer leave. *)
Definition handlePointerUp : DragId := None.

End Search.

Arguments SelectedEntity : clear implicits.

(** ** The data layer of graph-view.tsx: useGraphData

    A request is two steps, its start and its settling with what the
    [fetch] brought. *)

Record DataState := mkDataState {
  ds_data : option GraphResponse;
  ds_error : option string;
  ds_loading : bool;
  ds_cypherQuery : string;
  ds_cypherError : option string;
}.

(** What a [catch] receives: an [Error] with its message, or another value. *)
Inductive Thrown :=
  | ThrownError (message : string)
  | ThrownOther.

Inductive FetchOutcome :=
  | Rejected (t : Thrown)                       (* fetch itself threw *)
  | RespondedOk (json : GraphResponse + Thrown) (* res.ok, then res.json() *)
  | RespondedNotOk (status : Z) (errorField : option string).
                                                (* !res.ok; json?.error if any *)

Definition initialDataState : DataState :=
  mkDataState None None true EmptyString None.

Definition status_message (status : Z) : string :=
  "Request failed with status " ++ pretty status.

(** [err instanceof Error ? err.message : fallback]. *)
Definition message_or (t : Thrown) (fallback : string) : string :=
  match t with
  | ThrownError m => m
  | ThrownOther => fallback
  end.

Definition loadDefaultGraph_start (st : DataState) : DataState :=
  mkDataState (ds_data st) None true (ds_cypherQuery st) None.

Definition loadDefaultGraph_settle (o : FetchOutcome) (st : DataState) : DataState :=
  let failed (t : Thrown) :=
    mkDataState (ds_data st) (Some (message_or t "Unknown error")) false
                (ds_cypherQuery st) (ds_cypherError st) in
  match o with
  | Rejected t => failed t
  | RespondedNotOk status _ => failed (ThrownError (status_message status))
  | RespondedOk (inr t) => failed t
  | RespondedOk (inl json) =>
      mkDataState (Some json) (ds_error st) false (ds_cypherQuery st)
                  (ds_cypherError st)
  end.

(** [runCypherQuery] up to the [fetch]: the new state and the query sent,
    if one is. *)
Definition runCypherQuery_start (trim : string → string) (st : DataState)
  : DataState * option string :=
  let trimmed := trim (ds_cypherQuery st) in
  if bool_decide (trimmed = EmptyString) then
    (mkDataState (ds_data st) (ds_error st) (ds_loading st) (ds_cypherQuery st)
                 (Some "Please enter a Cypher query to run."), None)
  else
    (mkDataState (ds_data st) (ds_error st) true (ds_cypherQuery st) None,
     Some trimmed).

Definition runCypherQuery_settle (o : FetchOutcome) (st : DataState) : DataState :=
  let failed (t : Thrown) :=
    mkDataState (ds_data st) (ds_error st) false (ds_cypherQuery st)
                (Some (message_or t "Unknown error while running query")) in
  match o with
  | Rejected t => failed t
  | RespondedNotOk status errorField =>
      failed (ThrownError (default (status_message status) errorField))
  | RespondedOk (inr t) => failed t
  | RespondedOk (inl json) =>
      mkDataState (Some json) (ds_error st) false (ds_cypherQuery st)
                  (ds_cypherError st)
  end.

Definition setCypherQuery (q : string) (st : DataState) : DataState :=
  mkDataState (ds_data st) (ds_error st) (ds_loading st) q (ds_cypherError st).

(** What GraphView renders. *)
Inductive Screen :=
  | ScreenLoading
  | ScreenError (message : string)
  | ScreenNoNodes
  | ScreenInitializing
  | ScreenGraph.

Definition screen {F : Type} (st : DataState) (sims : list (SimNode F)) : Screen :=
  if ds_loading st then ScreenLoading
  else match ds_error st with
  | Some (String c m) => ScreenError (String c m)
  | _ =>
      match ds_data st with
      | None => ScreenNoNodes
      | Some d =>
          if bool_decide (length (nodes d) = 0%nat) then ScreenNoNodes
          else if bool_decide (length sims = 0%nat) then ScreenInitializing
          else ScreenGraph
      end
  end.

(** The effect of useGraphSimulation that runs when [data] changes. *)
Definition reset_nodes {F : Type} `{Num F} (rnd : nat → F)
  (data : option GraphResponse) : list (SimNode F) :=
  match data with
  | None => []
  | Some d =>
      if bool_decide (length (nodes d) = 0%nat) then []
      else createInitialNodes rnd d
  end.

(** [handleResetClick] of GraphView up to the [fetch]: the new data state
    and the new selection. *)
Definition handleResetClick {F : Type} (st : DataState)
  : DataState * option (SelectedEntity F) :=
  (loadDefaultGraph_start (setCypherQuery EmptyString st), None).

(** [handleRunCypherClick] of GraphView up to the [fetch]: the new data
    state, the query sent if one is, and the new selection. *)
Definition handleRunCypherClick {F : Type} (trim : string → string) (st : DataState)
  : DataState * option string * option (SelectedEntity F) :=
  (runCypherQuery_start trim st, None).

(** A request that did not bring a graph. *)
Definition failed (o : FetchOutcome) : Prop :=
  match o with
  | RespondedOk (inl _) => False
  | _ => True
  end.

(** ** Totals over the node array, in exact arithmetic *)


(** [sub] occurs in [s] as a run of consecutive characters. *)
Definition occurs_in (sub s : string) : Prop :=
  ∃ pre post : string, s = (pre ++ sub ++ post)%string.

(** ** Sample inputs *)

Module Samples.

Definition fnode (i : Id) (px py pvx pvy : float) : SimNode float :=
  mkSimNode (mkGraphNode i None None) px py pvx pvy.

Definition rnode (i : Id) (px py pvx pvy : R) : SimNode R :=
  mkSimNode (mkGraphNode i None None) px py pvx pvy.

Definition raw (i : Id) : GraphNode := mkGraphNode i None None.

(** A lone node at rest, and a [Math.random] that returns 0, over the reals. *)
Definition lone_real : list (SimNode R) := [rnode (IdNum 1) 100 100 0 0].
Definition rnd_zero_real : nat → R := λ _, 0%R.


Definition edge (i s t : Id) : GraphLink := mkGraphLink i s t None None.

(** Two free nodes one unit apart. *)
Definition near_pair : list (SimNode float) :=
  [fnode (IdNum 1) 100 100 0 0; fnode (IdNum 2) 101 100 0 0].

(** A full-size svg, and a pointer two pixels inside its lower left
    corner. *)
Definition svg_rect : DOMRect float := mkDOMRect 0%float 0%float 960%float 540%float.
Definition pointer_at_corner : PointerEvent float :=
  mkPointerEvent 2%float 538%float.
Definition pointer_inside : PointerEvent float :=
  mkPointerEvent 200%float 300%float.

Definition one_node_a : list (SimNode float) := [fnode (IdStr "a") 100 100 0 0].

(** A node whose id is the number 0. *)
Definition node_zero : list (SimNode float) := [fnode (IdNum 0) 100 100 0 0].


(** A numeric id and the string it prints as. *)
Definition node_one : SimNode float := fnode (IdNum 1) 100 100 0 0.

(** The example of the specification: nodes A and B, one link between
    them and one dangling link. *)
Definition simA : SimNode float := fnode (IdStr "A") 100 100 0 0.
Definition simB : SimNode float := fnode (IdStr "B") 300 200 0 0.
Definition link_AB : GraphLink := edge (IdStr "l1") (IdStr "A") (IdStr "B").
Definition link_dangling : GraphLink := edge (IdStr "l2") (IdStr "A") (IdStr "missing").
Definition payload_AB : GraphResponse :=
  mkGraphResponse [raw (IdStr "A"); raw (IdStr "B")] [link_AB; link_dangling].

(** A link from node 7 to itself, written once with a number and once with
    a string. *)
Definition self_link : GraphLink := edge (IdStr "loop") (IdNum 7) (IdStr "7").
Definition node_seven : SimNode float := fnode (IdNum 7) 50 50 0 0.

End Samples.

(** * Facts that hold in every arithmetic *)

Section CoreFacts.
Context {F : Type} `{Num F}.
Implicit Types (n m : SimNode F) (u prev : list (SimNode F)) (d : DragId).

Lemma frame_add_vel ax ay n : frame (add_vel ax ay n) = frame n.
Proof. reflexivity. Qed.

Lemma frame_sub_vel ax ay n : frame (sub_vel ax ay n) = frame n.
Proof. reflexivity. Qed.


Lemma repel_impulse_frame a a' b b' :
  frame a = frame a' → frame b = frame b' → repel_impulse a b = repel_impulse a' b'.
Proof. unfold frame, repel_impulse. intros [= _ -> ->] [= _ -> ->]. reflexivity. Qed.

Lemma spring_impulse_frame a a' b b' :
  frame a = frame a' → frame b = frame b' → spring_impulse a b = spring_impulse a' b'.
Proof. unfold frame, spring_impulse. intros [= _ -> ->] [= _ -> ->]. reflexivity. Qed.

Lemma frames_lookup u prev i :
  frame <$> u = frame <$> prev →
  match u !! i, prev !! i with
  | Some a, Some a' => frame a = frame a'
  | None, None => True
  | _, _ => False
  end.
Proof.
  intros Hf. assert (Hi : (frame <$> u) !! i = (frame <$> prev) !! i) by (by rewrite Hf).
  rewrite !list_lookup_fmap in Hi.
  destruct (u !! i), (prev !! i); simpl in Hi;
    first [ exact (inj Some _ _ Hi) | discriminate Hi | exact I ].
Qed.

Lemma frames_alter (g : SimNode F → SimNode F) u i :
  (∀ n, frame (g n) = frame n) → frame <$> alter g i u = frame <$> u.
Proof.
  intros Hg. rewrite (list_fmap_alter frame g (λ fr, fr))
    by (apply Forall_forall; intros; apply Hg).
  by apply list_alter_id.
Qed.

Lemma frames_length u prev : frame <$> u = frame <$> prev → length u = length prev.
Proof. intros Hf. by rewrite <- (length_fmap frame u), Hf, length_fmap. Qed.

(** *** Phase 1: the pair loops against [pair_effect] *)

Local Opaque repel_impulse spring_impulse.

Lemma repel_pair_frames d i j u : frame <$> repel_pair d i j u = frame <$> u.
Proof.
  unfold repel_pair. destruct (u !! i) as [a|]; [|done].
  destruct (u !! j) as [b|]; [|done].
  destruct (is_dragged d a), (is_dragged d b); simpl;
    rewrite ?frames_alter; auto using frame_add_vel, frame_sub_vel.
Qed.

Lemma repel_pair_lookup d prev u i j k :
  frame <$> u = frame <$> prev → i ≠ j →
  repel_pair d i j u !! k
  = (λ n, pair_effect repel_impulse d prev k n (i, j)) <$> u !! k.
Proof.
  intros Hf Hij. unfold repel_pair, pair_effect; simpl.
  pose proof (frames_lookup u prev i Hf) as Hi.
  pose proof (frames_lookup u prev j Hf) as Hj.
  destruct (u !! i) as [a|] eqn:Ea, (prev !! i) as [a'|]; try done;
    destruct (u !! j) as [b|] eqn:Eb, (prev !! j) as [b'|]; try done;
    try (by destruct (u !! k)).
  rewrite (repel_impulse_frame a a' b b' Hi Hj).
  set (imp := repel_impulse a' b').
  destruct (decide (k = i)) as [->|Hki].
  - rewrite Ea; simpl. rewrite bool_decide_eq_true_2 by done.
    destruct (is_dragged d a), (is_dragged d b); simpl;
      rewrite ?(list_lookup_alter_ne _ _ j i) by done;
      rewrite ?list_lookup_alter_eq, ?Ea; done.
  - destruct (decide (k = j)) as [->|Hkj].
    + rewrite Eb; simpl. rewrite bool_decide_eq_false_2 by done.
      rewrite bool_decide_eq_true_2 by done.
      destruct (is_dragged d a), (is_dragged d b); simpl;
        rewrite ?list_lookup_alter_eq, ?(list_lookup_alter_ne _ _ i j) by done;
        rewrite ?Eb; done.
    + rewrite !bool_decide_eq_false_2 by done.
      destruct (is_dragged d a), (is_dragged d b); simpl;
        rewrite ?list_lookup_alter_ne by done;
        destruct (u !! k) as [n|]; simpl; try done;
        by destruct (is_dragged d n).
Qed.

Lemma repel_pairs_lookup d prev ps u :
  Forall (λ p, p.1 ≠ p.2) ps → frame <$> u = frame <$> prev →
  let u' := foldl (λ u p, repel_pair d p.1 p.2 u) u ps in
  frame <$> u' = frame <$> prev
  ∧ ∀ k, u' !! k = (λ n, foldl (pair_effect repel_impulse d prev k) n ps) <$> u !! k.
Proof.
  intros Hps. revert u. induction Hps as [|[i j] ps Hp _ IH]; intros u Hf; simpl.
  - split; [done|]. intros k. by destruct (u !! k).
  - simpl in Hp.
    destruct (IH (repel_pair d i j u)) as [Hf' Hk].
    { by rewrite repel_pair_frames. }
    split; [done|]. intros k. rewrite Hk, (repel_pair_lookup d prev) by done.
    by destruct (u !! k).
Qed.

Lemma repel_row_length d u i : length (repel_row d u i) = length u.
Proof.
  unfold repel_row. generalize (seq (S i) (length u - S i)) as js.
  intros js. revert u. induction js as [|j js IH]; intros u; simpl; [done|].
  rewrite IH. rewrite <- (length_fmap frame (repel_pair d i j u)), repel_pair_frames.
  by rewrite length_fmap.
Qed.

Lemma repel_rows_pairs d (rows : list nat) u :
  foldl (repel_row d) u rows
  = foldl (λ u p, repel_pair d p.1 p.2 u) u
      (flat_map (λ i, pair i <$> seq (S i) (length u - S i)) rows).
Proof.
  revert u. induction rows as [|i rows IH]; intros u; simpl; [done|].
  rewrite foldl_app, foldl_fmap. simpl.
  rewrite IH. fold (repel_row d u i). by rewrite repel_row_length.
Qed.

Lemma repel_all_pairs d u :
  repel_all d u = foldl (λ u p, repel_pair d p.1 p.2 u) u (all_pairs (length u)).
Proof. apply repel_rows_pairs. Qed.

Lemma all_pairs_lt (cnt : nat) : Forall (λ p, p.1 < p.2 < cnt)%nat (all_pairs cnt).
Proof.
  unfold all_pairs. apply Forall_forall. intros [i j] Hin.
  apply list_elem_of_In, in_flat_map in Hin as (i' & _ & Hin).
  apply list_elem_of_In, list_elem_of_fmap in Hin as (j' & [= -> ->] & Hj).
  apply elem_of_seq in Hj. simpl. lia.
Qed.

Lemma repel_all_lookup d u :
  frame <$> repel_all d u = frame <$> u
  ∧ ∀ k, repel_all d u !! k
         = (λ n, foldl (pair_effect repel_impulse d u k) n (all_pairs (length u)))
           <$> u !! k.
Proof.
  rewrite repel_all_pairs. apply repel_pairs_lookup; [|done].
  eapply Forall_impl; [apply all_pairs_lt|]. simpl. lia.
Qed.

(** *** Phase 2: the link loop against [link_effect] *)

Lemma spring_link_lookup d prev u l :
  frame <$> u = frame <$> prev → (l.1 < length prev ∧ l.2 < length prev)%nat →
  ∃ u', spring_link d l u = Some u'
        ∧ frame <$> u' = frame <$> prev
        ∧ ∀ k, u' !! k = (λ n, link_effect d prev k n l) <$> u !! k.
Proof.
  intros Hf [H1 H2]. destruct l as [s t]; simpl in *.
  unfold spring_link, link_effect; simpl.
  pose proof (frames_lookup u prev s Hf) as Hs.
  pose proof (frames_lookup u prev t Hf) as Ht.
  destruct (lookup_lt_is_Some_2 prev s H1) as [a' Ea'].
  destruct (lookup_lt_is_Some_2 prev t H2) as [b' Eb'].
  rewrite Ea', Eb' in *.
  destruct (u !! s) as [a|] eqn:Ea; [|done].
  destruct (u !! t) as [b|] eqn:Eb; [|done].
  rewrite (spring_impulse_frame a a' b b' Hs Ht).
  set (imp := spring_impulse a' b').
  eexists; split; [reflexivity|]. split.
  { destruct (is_dragged d a), (is_dragged d b); simpl;
      rewrite ?frames_alter; auto using frame_add_vel, frame_sub_vel. }
  intros k.
  destruct (decide (k = s)) as [Eks|Hks]; destruct (decide (k = t)) as [Ekt|Hkt].
  - assert (b = a) as -> by congruence.
    rewrite (bool_decide_eq_true_2 (k = s)), (bool_decide_eq_true_2 (k = t)) by done.
    subst s t. rewrite Ea; simpl.
    destruct (is_dragged d a); simpl;
      rewrite ?list_lookup_alter_eq, ?Ea; reflexivity.
  - rewrite (bool_decide_eq_true_2 (k = s)), (bool_decide_eq_false_2 (k = t)) by done.
    subst s. rewrite Ea; simpl.
    destruct (is_dragged d a), (is_dragged d b); simpl;
      rewrite ?(list_lookup_alter_ne _ _ t k) by done;
      rewrite ?list_lookup_alter_eq, ?Ea; reflexivity.
  - rewrite (bool_decide_eq_false_2 (k = s)), (bool_decide_eq_true_2 (k = t)) by done.
    subst t. rewrite Eb; simpl.
    destruct (is_dragged d a), (is_dragged d b); simpl;
      rewrite ?list_lookup_alter_eq, ?(list_lookup_alter_ne _ _ s k) by done;
      rewrite ?Eb; reflexivity.
  - rewrite (bool_decide_eq_false_2 (k = s)), (bool_decide_eq_false_2 (k = t)) by done.
    destruct (is_dragged d a), (is_dragged d b); simpl;
      rewrite ?list_lookup_alter_ne by done;
      destruct (u !! k) as [n|]; simpl; try done;
      by destruct (is_dragged d n).
Qed.

Lemma spring_all_lookup d prev ls u :
  links_ok (length prev) ls → frame <$> u = frame <$> prev →
  ∃ u', spring_all d ls u = Some u'
        ∧ frame <$> u' = frame <$> prev
        ∧ ∀ k, u' !! k = (λ n, foldl (link_effect d prev k) n ls) <$> u !! k.
Proof.
  intros Hls. revert u. induction Hls as [|l ls Hl _ IH]; intros u Hf; simpl.
  - exists u. split; [done|]. split; [done|]. intros k. by destruct (u !! k).
  - destruct (spring_link_lookup d prev u l Hf Hl) as (u1 & -> & Hf1 & Hk1).
    destruct (IH u1 Hf1) as (u2 & -> & Hf2 & Hk2).
    exists u2. split; [done|]. split; [done|].
    intros k. rewrite Hk2, Hk1. by destruct (u !! k).
Qed.

(** *** The tick is its three phases read off the previous array *)

Lemma tick_refines ls d prev :
  links_ok (length prev) ls →
  tick ls d prev = Some (tick_phases repel_impulse ls d prev).
Proof.
  intros Hls. unfold tick, tick_phases. case_bool_decide as Hn.
  - destruct prev; [done|discriminate].
  - destruct (repel_all_lookup d prev) as [Hf1 Hk1].
    destruct (spring_all_lookup d prev ls (repel_all d prev) Hls Hf1)
      as (u2 & -> & Hf2 & Hk2).
    f_equal. apply list_eq. intros k.
    rewrite list_lookup_fmap, Hk2, Hk1, list_lookup_imap.
    by destruct (prev !! k).
Qed.

(** *** What the phases leave alone *)

Lemma pair_effect_frame repel d prev k n p :
  frame (pair_effect repel d prev k n p) = frame n.
Proof.
  unfold pair_effect. destruct (prev !! p.1); [|done]. destruct (prev !! p.2); [|done].
  simpl. destruct (is_dragged d n); [done|]. by repeat case_bool_decide.
Qed.

Lemma link_effect_frame d prev k n l : frame (link_effect d prev k n l) = frame n.
Proof.
  unfold link_effect. destruct (prev !! l.1); [|done]. destruct (prev !! l.2); [|done].
  simpl. destruct (is_dragged d n); [done|]. by repeat case_bool_decide.
Qed.

Lemma foldl_frame {B} (f : SimNode F → B → SimNode F) (bs : list B) n :
  (∀ m b, frame (f m b) = frame m) → frame (foldl f n bs) = frame n.
Proof.
  intros Hf. revert n. induction bs as [|b bs IH]; intros n; simpl; [done|].
  by rewrite IH, Hf.
Qed.

Lemma pair_effect_dragged repel d prev k n p :
  is_dragged d n = true → pair_effect repel d prev k n p = n.
Proof.
  intros Hd. unfold pair_effect. destruct (prev !! p.1); [|done].
  destruct (prev !! p.2); [|done]. simpl. by rewrite Hd.
Qed.

Lemma link_effect_dragged d prev k n l :
  is_dragged d n = true → link_effect d prev k n l = n.
Proof.
  intros Hd. unfold link_effect. destruct (prev !! l.1); [|done].
  destruct (prev !! l.2); [|done]. simpl. by rewrite Hd.
Qed.

Lemma foldl_fixed {B} (f : SimNode F → B → SimNode F) (bs : list B) n :
  (∀ b, f n b = n) → foldl f n bs = n.
Proof. intros Hf. induction bs as [|b bs IH]; simpl; [done|]. by rewrite Hf. Qed.

Lemma settle_node d n : node (settle d n) = node n.
Proof.
  unfold settle. destruct (is_dragged d n); [done|]. simpl.
  unfold clamp_speed. simpl. by destruct (gtb _ _).
Qed.

Lemma settle_dragged d n :
  is_dragged d n = true →
  settle d n = mkSimNode (node n) (x n) (y n) (mul (vx n) DAMPING) (mul (vy n) DAMPING).
Proof. intros Hd. unfold settle. by rewrite Hd. Qed.

Lemma is_dragged_node d n m : node n = node m → is_dragged d n = is_dragged d m.
Proof. unfold is_dragged. by intros ->. Qed.

Lemma before_settle_frame repel ls d prev k n :
  frame (before_settle repel ls d prev k n) = frame n.
Proof.
  unfold before_settle. rewrite foldl_frame by apply link_effect_frame.
  apply foldl_frame, pair_effect_frame.
Qed.

Lemma before_settle_dragged repel ls d prev k n :
  is_dragged d n = true → before_settle repel ls d prev k n = n.
Proof.
  intros Hd. unfold before_settle.
  rewrite (foldl_fixed (pair_effect repel d prev k))
    by (intros; by apply pair_effect_dragged).
  apply foldl_fixed. intros. by apply link_effect_dragged.
Qed.

(** The node a tick computes at index [k]. *)
Lemma tick_phases_lookup repel ls d prev k n :
  prev !! k = Some n →
  tick_phases repel ls d prev !! k
  = Some (settle d (before_settle repel ls d prev k n)).
Proof. intros Hk. unfold tick_phases. by rewrite list_lookup_imap, Hk. Qed.

Lemma tick_phases_lookup_inv repel ls d prev k n' :
  tick_phases repel ls d prev !! k = Some n' →
  ∃ n, prev !! k = Some n ∧ n' = settle d (before_settle repel ls d prev k n).
Proof.
  unfold tick_phases. rewrite list_lookup_imap.
  destruct (prev !! k) as [n|]; [|done]. intros [= <-]. by exists n.
Qed.

Lemma tick_phases_node repel ls d prev :
  node <$> tick_phases repel ls d prev = node <$> prev.
Proof.
  apply list_eq. intros k. unfold tick_phases.
  rewrite !list_lookup_fmap, list_lookup_imap.
  destruct (prev !! k) as [n|]; [|done]. simpl. f_equal.
  rewrite settle_node.
  assert (Hfr : ∀ a b : SimNode F, frame a = frame b → node a = node b)
    by (unfold frame; intros a b [= -> _ _]; done).
  apply Hfr, before_settle_frame.
Qed.

Lemma tick_phases_dragged repel ls d prev k n :
  prev !! k = Some n → is_dragged d n = true →
  tick_phases repel ls d prev !! k
  = Some (mkSimNode (node n) (x n) (y n) (mul (vx n) DAMPING) (mul (vy n) DAMPING)).
Proof.
  intros Hk Hd. rewrite (tick_phases_lookup _ _ _ _ _ _ Hk).
  rewrite before_settle_dragged by done. by rewrite settle_dragged.
Qed.

Lemma tick_length ls d prev out : tick ls d prev = Some out → length out = length prev.
Proof.
  unfold tick. case_bool_decide; [by intros [= <-]|].
  destruct (spring_all d ls (repel_all d prev)) as [u|] eqn:Hs; [|done].
  intros [= <-]. rewrite length_fmap.
  assert (Hgen : ∀ ls u u', spring_all d ls u = Some u' → length u' = length u).
  { clear. intros ls. induction ls as [|l ls IH]; intros u u'; simpl.
    - by intros [= <-].
    - unfold spring_link. destruct (u !! l.1) as [a|]; [|done].
      destruct (u !! l.2) as [b|]; [|done]. intros Hu'. apply IH in Hu'.
      rewrite Hu'. destruct (is_dragged d a), (is_dragged d b); simpl;
        by rewrite ?length_alter. }
  rewrite (Hgen _ _ _ Hs). apply frames_length, repel_all_lookup.
Qed.

Lemma ticks_snoc k ls d prev :
  ticks (S k) ls d prev
  = match ticks k ls d prev with
    | Some mid => tick ls d mid
    | None => None
    end.
Proof.
  revert prev. induction k as [|k IH]; intros prev.
  - simpl. by destruct (tick ls d prev).
  - change (ticks (S (S k)) ls d prev)
      with (match tick ls d prev with
            | Some next => ticks (S k) ls d next | None => None end).
    destruct (tick ls d prev) as [next|] eqn:Ht.
    + rewrite IH. simpl. by rewrite Ht.
    + simpl. by rewrite Ht.
Qed.

Lemma ticks_total k ls d prev :
  links_ok (length prev) ls →
  ∃ out, ticks k ls d prev = Some out ∧ length out = length prev.
Proof.
  revert prev. induction k as [|k IH]; intros prev Hls; simpl.
  - by exists prev.
  - rewrite tick_refines by done.
    assert (Hlen : length (tick_phases repel_impulse ls d prev) = length prev).
    { apply tick_length with ls d. by apply tick_refines. }
    destruct (IH (tick_phases repel_impulse ls d prev)) as (out & -> & Hout).
    { by rewrite Hlen. }
    exists out. split; [done|]. by rewrite Hout.
Qed.

(** *** The node map and the two link resolutions *)

Lemma createNodeMap_acc (m0 : gmap string (SimNode F)) u s m :
  foldl (λ (acc : gmap string (SimNode F)) nd, <[js_String (node_id (node nd)) := nd]> acc) m0 u !! s = Some m →
  (m ∈ u ∧ js_String (node_id (node m)) = s) ∨ m0 !! s = Some m.
Proof.
  revert m0. induction u as [|n u IH]; intros m0; simpl; [by right|].
  intros Hm. destruct (IH _ Hm) as [[Hin Hs]|Hm0].
  - left. split; [by right|done].
  - destruct (decide (js_String (node_id (node n)) = s)) as [<-|Hne].
    + rewrite lookup_insert_eq in Hm0. injection Hm0 as ->. left. split; [by left|done].
    + rewrite lookup_insert_ne in Hm0 by done. by right.
Qed.

Lemma createNodeMap_lookup_Some u s m :
  createNodeMap u !! s = Some m → m ∈ u ∧ js_String (node_id (node m)) = s.
Proof.
  intros Hm. destruct (createNodeMap_acc ∅ u s m Hm) as [?|He]; [done|].
  by rewrite lookup_empty in He.
Qed.

Lemma createNodeMap_acc_is_Some (m0 : gmap string (SimNode F)) u s :
  is_Some (m0 !! s) ∨ (∃ n, n ∈ u ∧ js_String (node_id (node n)) = s) →
  is_Some (foldl (λ (acc : gmap string (SimNode F)) nd, <[js_String (node_id (node nd)) := nd]> acc) m0 u !! s).
Proof.
  revert m0. induction u as [|n u IH]; intros m0; simpl.
  - intros [?|(n & Hn & _)]; [done|]. by apply elem_of_nil in Hn.
  - intros Hor. apply IH.
    destruct (decide (js_String (node_id (node n)) = s)) as [<-|Hne].
    + left. rewrite lookup_insert_eq. by eexists.
    + destruct Hor as [Hm0|(n' & Hn' & Hs)].
      * left. by rewrite lookup_insert_ne.
      * apply elem_of_cons in Hn' as [->|Hn']; [done|]. right. by exists n'.
Qed.

Lemma createNodeMap_lookup_is_Some u n :
  n ∈ u → is_Some (createNodeMap u !! js_String (node_id (node n))).
Proof. intros Hn. apply createNodeMap_acc_is_Some. right. by exists n. Qed.

Lemma indexById_acc (m0 : gmap string nat) (gs : list GraphNode) (off : nat) s i :
  foldl (λ (acc : gmap string nat) p, <[js_String (node_id p.2) := p.1]> acc) m0
        (imap (λ j, pair (off + j)%nat) gs) !! s = Some i →
  (off <= i < off + length gs)%nat ∨ m0 !! s = Some i.
Proof.
  revert m0 off. induction gs as [|g gs IH]; intros m0 off; simpl; [by right|].
  intros Hi.
  rewrite (imap_ext _ (λ j, pair (S off + j)%nat)) in Hi
    by (intros; simpl; f_equal; lia).
  destruct (IH _ _ Hi) as [?|Hm0]; [left; lia|].
  simpl in Hm0. destruct (decide (js_String (node_id g) = s)) as [<-|Hne].
  - rewrite lookup_insert_eq in Hm0. injection Hm0 as <-. left. lia.
  - rewrite lookup_insert_ne in Hm0 by done. by right.
Qed.

Lemma indexById_lt (gs : list GraphNode) s i :
  indexById gs !! s = Some i → (i < length gs)%nat.
Proof.
  intros Hi. destruct (indexById_acc ∅ gs 0 s i Hi) as [?|He]; [lia|].
  by rewrite lookup_empty in He.
Qed.

(** The index pairs of a payload fit the node array of that payload. *)
Lemma preresolveLinks_ok (data : GraphResponse) :
  links_ok (length (nodes data)) (preresolveLinks data).
Proof.
  apply Forall_forall. intros [s t] Hin.
  apply list_elem_of_omap in Hin as (l & _ & Hl). unfold preresolve_one in Hl.
  destruct (indexById (nodes data) !! js_String (source l)) as [si|] eqn:Es; [|done].
  destruct (indexById (nodes data) !! js_String (target l)) as [ti|] eqn:Et; [|done].
  case_bool_decide; [done|]. injection Hl as <- <-.
  split; simpl; by eapply indexById_lt.
Qed.

Lemma resolve_one_Some (nodeMap : gmap string (SimNode F)) l r :
  resolve_one nodeMap l = Some r ↔
  ∃ s t, nodeMap !! js_String (source l) = Some s
         ∧ nodeMap !! js_String (target l) = Some t
         ∧ r = mkResolvedLink l s t.
Proof.
  unfold resolve_one. destruct (nodeMap !! js_String (source l)) as [s|];
    destruct (nodeMap !! js_String (target l)) as [t|]; split;
    try (intros [= <-]; by eauto); try done;
    intros (s' & t' & Hs & Ht & ->); congruence.
Qed.

Lemma resolveLinks_app ns ls1 ls2 (nodeMap : gmap string (SimNode F)) :
  resolveLinks (Some (mkGraphResponse ns (ls1 ++ ls2))) nodeMap
  = resolveLinks (Some (mkGraphResponse ns ls1)) nodeMap
    ++ resolveLinks (Some (mkGraphResponse ns ls2)) nodeMap.
Proof. simpl. apply omap_app. Qed.

Lemma createInitialNodes_lookup (rnd : nat → F) (data : GraphResponse) i n :
  createInitialNodes rnd data !! i = Some n →
  ∃ g, nodes data !! i = Some g ∧ n = place rnd (length (nodes data)) i g.
Proof.
  unfold createInitialNodes. case_bool_decide as Hz.
  - by rewrite lookup_nil.
  - rewrite list_lookup_imap. destruct (nodes data !! i) as [g|]; [|done].
    intros [= <-]. by exists g.
Qed.

Lemma createInitialNodes_length (rnd : nat → F) (data : GraphResponse) :
  length (createInitialNodes rnd data) = length (nodes data).
Proof.
  unfold createInitialNodes. case_bool_decide as Hz.
  - by rewrite Hz.
  - apply length_imap.
Qed.

Lemma handlePointerMove_falsy d svg (e : PointerEvent F) prev :
  falsy d = true → handlePointerMove d svg e prev = prev.
Proof. intros Hd. unfold handlePointerMove. by rewrite Hd. Qed.

Lemma handlePointerMove_lookup d rect (e : PointerEvent F) prev k n :
  falsy d = false → prev !! k = Some n → is_dragged d n = true →
  handlePointerMove d (Some rect) e prev !! k
  = Some (mkSimNode (node n) (pointer_x e rect) (pointer_y e rect) (lit 0) (lit 0)).
Proof.
  intros Hd Hk Hn. unfold handlePointerMove. rewrite Hd.
  case_bool_decide as Hlen.
  - destruct prev; [done|discriminate].
  - by rewrite list_lookup_fmap, Hk; simpl; rewrite Hn.
Qed.

Lemma handlePointerMove_length d svg (e : PointerEvent F) prev :
  length (handlePointerMove d svg e prev) = length prev.
Proof.
  unfold handlePointerMove. destruct (falsy d); [done|].
  destruct svg; [|done]. case_bool_decide; [done|]. by rewrite length_fmap.
Qed.

(** Dragging a node whose id is neither [0] nor the empty string: after the
    pointer move and one tick the node is at the pointer position. *)
Lemma drag_then_tick ls d rect (e : PointerEvent F) prev k n :
  falsy d = false → links_ok (length prev) ls →
  prev !! k = Some n → is_dragged d n = true →
  ∃ out, tick ls d (handlePointerMove d (Some rect) e prev) = Some out
         ∧ out !! k = Some (mkSimNode (node n) (pointer_x e rect) (pointer_y e rect)
                                      (mul (lit 0) DAMPING) (mul (lit 0) DAMPING)).
Proof.
  intros Hd Hls Hk Hn. eexists. split.
  - apply tick_refines. by rewrite handlePointerMove_length.
  - rewrite (tick_phases_dragged _ _ _ _ k
               (mkSimNode (node n) (pointer_x e rect) (pointer_y e rect) (lit 0) (lit 0)));
      [done | by apply handlePointerMove_lookup | exact Hn].
Qed.

(** * The claims that hold in every arithmetic *)

(** C1 (as amended).  One tick computes, for the node at each index of the
    previous array, phase 1 (for every unordered pair in loop order, the
    impulse [REPEL_STRENGTH / (|d|^2 + 0.01)] times [d / sqrt(|d|^2 + 0.01)]
    times [DT], subtracted on the first node of the pair and added on the
    second, a pinned node skipped), then phase 2 (for every pre-resolved
    link in order, [SPRING_STRENGTH * (dist - LINK_DISTANCE)] along
    [d / dist] times [DT], added on the source and subtracted on the target,
    a pinned node skipped), then phase 3 ([settle]: centering, damping, speed
    clamp, integration, position clamp for a free node; damping alone for
    the pinned one), every impulse being taken from the positions of the
    previous array. *)
Theorem tick_three_phases ls d prev :
  links_ok (length prev) ls →
  tick ls d prev = Some (tick_phases repel_impulse ls d prev).
Proof. apply tick_refines. Qed.

(** C9.  A tick returns an array of the same length in the same order in
    which every node keeps its id, label and properties. *)
Theorem tick_keeps_nodes ls d prev :
  links_ok (length prev) ls →
  ∃ out, tick ls d prev = Some out
         ∧ length out = length prev
         ∧ node <$> out = node <$> prev.
Proof.
  intros Hls. exists (tick_phases repel_impulse ls d prev).
  split; [by apply tick_refines|]. split.
  - apply tick_length with ls d. by apply tick_refines.
  - apply tick_phases_node.
Qed.

(** C6.  [resolveLinks] keeps, in order, exactly the links both of whose
    string-coerced endpoints are keys of the node map, each with the two
    nodes the map holds for them; without data it is empty; and on the
    nodes A, B with the links A-B and A-"missing" it returns the one A-B
    entry. *)
Theorem resolveLinks_subset (data : GraphResponse) (nodeMap : gmap string (SimNode F)) :
  rl_link <$> resolveLinks (Some data) nodeMap
  = filter (λ l, is_Some (nodeMap !! js_String (source l))
                 ∧ is_Some (nodeMap !! js_String (target l))) (links data)
  ∧ Forall (λ r, nodeMap !! js_String (source (rl_link r)) = Some (rl_source r)
                 ∧ nodeMap !! js_String (target (rl_link r)) = Some (rl_target r))
           (resolveLinks (Some data) nodeMap)
  ∧ resolveLinks None nodeMap = []
  ∧ ∀ a b : SimNode F,
      node_id (node a) = IdStr "A" → node_id (node b) = IdStr "B" →
      resolveLinks (Some Samples.payload_AB) (createNodeMap [a; b])
      = [mkResolvedLink Samples.link_AB a b].
Proof.
  split; [|split; [|split]].
  - simpl. induction (links data) as [|l ls IH]; [done|]. simpl.
    rewrite filter_cons. unfold resolve_one at 1.
    destruct (nodeMap !! js_String (source l)) as [s|] eqn:Es;
      destruct (nodeMap !! js_String (target l)) as [t|] eqn:Et.
    + rewrite decide_True by (split; by eexists). simpl. f_equal. exact IH.
    + rewrite decide_False by (intros [_ [? ?]]; done). done.
    + rewrite decide_False by (intros [[? ?] _]; done). done.
    + rewrite decide_False by (intros [[? ?] _]; done). done.
  - apply Forall_forall. intros r Hr. simpl in Hr.
    apply list_elem_of_omap in Hr as (l & _ & Hl).
    apply resolve_one_Some in Hl as (s & t & Hs & Ht & ->). done.
  - done.
  - intros a b Ha Hb. unfold createNodeMap, resolveLinks, resolve_one. simpl.
    rewrite Ha, Hb. simpl.
    rewrite (lookup_insert_ne _ "B" "A") by done.
    rewrite !lookup_insert_eq.
    rewrite !(lookup_insert_ne _ _ "missing") by done.
    by rewrite lookup_empty.
Qed.

(** C7 (as amended).  For two ids with the same string coercion, the node
    map and both link resolutions make no difference between them; the
    pinned check of the tick is strict equality of the ids. *)
Theorem id_comparisons (a b : Id) :
  js_String a = js_String b →
  (∀ ns n, n ∈ ns → node_id (node n) = a →
     ∃ m : SimNode F, createNodeMap ns !! js_String b = Some m
                      ∧ js_String (node_id (node m)) = js_String a)
  ∧ (∀ (nodeMap : gmap string (SimNode F)) i c ty pr,
       (rl_source <$> resolve_one nodeMap (mkGraphLink i a c ty pr)
        = rl_source <$> resolve_one nodeMap (mkGraphLink i b c ty pr))
       ∧ (rl_target <$> resolve_one nodeMap (mkGraphLink i c a ty pr)
          = rl_target <$> resolve_one nodeMap (mkGraphLink i c b ty pr)))
  ∧ (∀ idx i c ty pr,
       preresolve_one idx (mkGraphLink i a c ty pr)
       = preresolve_one idx (mkGraphLink i b c ty pr)
       ∧ preresolve_one idx (mkGraphLink i c a ty pr)
         = preresolve_one idx (mkGraphLink i c b ty pr))
  ∧ (∀ (n : SimNode F) c, is_dragged (Some c) n = true ↔ node_id (node n) = c).
Proof.
  intros Hab. split; [|split; [|split]].
  - intros ns n Hn Ha. rewrite <- Hab, <- Ha.
    destruct (createNodeMap_lookup_is_Some ns n Hn) as [m Hm].
    exists m. split; [done|]. by apply createNodeMap_lookup_Some in Hm as [_ ?].
  - intros nodeMap i c ty pr. unfold resolve_one. simpl. rewrite Hab.
    split; by destruct (nodeMap !! js_String b), (nodeMap !! js_String c).
  - intros idx i c ty pr. unfold preresolve_one. simpl. by rewrite Hab.
  - intros n c. unfold is_dragged, strict_eq. apply bool_decide_eq_true.
Qed.

(** C10.  A link whose two endpoints coerce to the same string is left out
    of the index pairs the simulation runs on, so the tick is the same with
    and without it, while [resolveLinks] keeps it when the node exists. *)
Theorem self_link_no_spring (ns : list GraphNode) (ls1 ls2 : list GraphLink)
    (l : GraphLink) :
  js_String (source l) = js_String (target l) →
  preresolveLinks (mkGraphResponse ns (ls1 ++ l :: ls2))
  = preresolveLinks (mkGraphResponse ns (ls1 ++ ls2))
  ∧ (∀ d (cur : list (SimNode F)),
       tick (preresolveLinks (mkGraphResponse ns (ls1 ++ l :: ls2))) d cur
       = tick (preresolveLinks (mkGraphResponse ns (ls1 ++ ls2))) d cur)
  ∧ (∀ (nodeMap : gmap string (SimNode F)) n,
       nodeMap !! js_String (source l) = Some n →
       resolveLinks (Some (mkGraphResponse ns (ls1 ++ l :: ls2))) nodeMap
       = resolveLinks (Some (mkGraphResponse ns ls1)) nodeMap
         ++ mkResolvedLink l n n
            :: resolveLinks (Some (mkGraphResponse ns ls2)) nodeMap).
Proof.
  intros Hself.
  assert (Hpre : preresolveLinks (mkGraphResponse ns (ls1 ++ l :: ls2))
                 = preresolveLinks (mkGraphResponse ns (ls1 ++ ls2))).
  { unfold preresolveLinks. simpl. rewrite !omap_app. f_equal. simpl.
    unfold preresolve_one at 1. rewrite Hself.
    destruct (indexById ns !! js_String (target l)); [|done].
    by rewrite bool_decide_eq_true_2. }
  split; [done|]. split.
  - intros d cur. by rewrite Hpre.
  - intros nodeMap n Hn. rewrite resolveLinks_app. f_equal. simpl.
    unfold resolve_one at 1. rewrite <- Hself, Hn. done.
Qed.

End CoreFacts.

(** * Runs of the program on binary64 numbers *)

Section Runs.
Import Samples.

(** The decimal constants are the doubles nearest to them, as the literals
    of the source are. *)
Example decimal_constants :
  SPRING_STRENGTH = 0x1.47ae147ae147bp-6%float
  ∧ CENTER_STRENGTH = 0x1.47ae147ae147bp-8%float
  ∧ DAMPING = 0x1.d70a3d70a3d71p-1%float
  ∧ DT = 0x1.0624dd2f1a9fcp-6%float.
Proof. repeat split; vm_compute; reflexivity. Qed.

(** Witness of C1: the two sample nodes joined by one link. *)
Lemma tick_three_phases_witness :
  links_ok (length near_pair) [(0, 1)%nat]
  ∧ tick [(0, 1)%nat] None near_pair
    = Some (tick_phases repel_impulse [(0, 1)%nat] None near_pair).
Proof.
  assert (Hls : links_ok (length near_pair) [(0, 1)%nat])
    by (repeat constructor; simpl; lia).
  split; [exact Hls | exact (tick_three_phases [(0, 1)%nat] None near_pair Hls)].
Defined.

(** C1, as stated, fails: with the repulsion of the specification, along
    the unit vector [d / |d|], two free nodes one unit apart leave the tick
    with other velocities than the program gives them; the first node's
    [vx] differs by more than 1/16. *)
Lemma tick_not_claimed_phases :
  tick [] None near_pair ≠ Some (tick_claimed [] None near_pair)
  ∧ ∃ n n' m m', tick [] None near_pair = Some [n; m]
                 ∧ tick_claimed [] None near_pair = [n'; m']
                 ∧ PrimFloat.ltb (vx n' + 0.0625)%float (vx n) = true.
Proof.
  split.
  - intros Heq.
    assert (Hv : match tick [] None near_pair with
                 | Some (n :: _) => PrimFloat.ltb (vx n) (-21.75)%float
                 | _ => true
                 end = false) by (vm_compute; reflexivity).
    rewrite Heq in Hv. vm_compute in Hv. discriminate Hv.
  - eexists _, _, _, _. split; [vm_compute; reflexivity|].
    split; [vm_compute; reflexivity|]. vm_compute. reflexivity.
Qed.

(** Witness of C9. *)
Lemma tick_keeps_nodes_witness :
  links_ok (length near_pair) [(0, 1)%nat]
  ∧ ∃ out, tick [(0, 1)%nat] None near_pair = Some out
           ∧ length out = length near_pair
           ∧ node <$> out = node <$> near_pair.
Proof.
  assert (Hls : links_ok (length near_pair) [(0, 1)%nat])
    by (repeat constructor; simpl; lia).
  split; [exact Hls | exact (tick_keeps_nodes [(0, 1)%nat] None near_pair Hls)].
Defined.

(** C4 fails on a node whose id is the number 0: [!draggedIdRef.current]
    is true for it, so the pointer move returns early and the node, pinned
    at (100, 100), is still there after the tick although the pointer is at
    (200, 300). *)
Theorem drag_ignored_for_id_zero :
  falsy (Some (IdNum 0)) = true
  ∧ pointer_x pointer_inside svg_rect = 200%float
  ∧ pointer_y pointer_inside svg_rect = 300%float
  ∧ handlePointerMove (Some (IdNum 0)) (Some svg_rect) pointer_inside node_zero
    = node_zero
  ∧ tick [] (Some (IdNum 0))
         (handlePointerMove (Some (IdNum 0)) (Some svg_rect) pointer_inside node_zero)
    = Some [fnode (IdNum 0) 100 100 0 0].
Proof. repeat split; vm_compute; reflexivity. Qed.

(** The same drag on a node with id 1 puts it at the pointer. *)
Example drag_followed_for_id_one :
  tick [] (Some (IdNum 1))
       (handlePointerMove (Some (IdNum 1)) (Some svg_rect) pointer_inside [node_one])
  = Some [fnode (IdNum 1) 200 300 0 0].
Proof. vm_compute. reflexivity. Qed.

(** C7, as stated, fails for the pinned check: the ids [1] and ["1"] have
    the same string coercion, yet with ["1"] being dragged the node with id
    [1] is not the pinned one. *)
Lemma pinned_check_is_strict :
  js_String (IdNum 1) = js_String (IdStr "1")
  ∧ is_dragged (Some (IdStr "1")) node_one = false
  ∧ is_dragged (Some (IdNum 1)) node_one = true.
Proof. repeat split; vm_compute; reflexivity. Qed.

(** Witness of C7. *)
Lemma id_comparisons_witness :
  js_String (IdNum 1) = js_String (IdStr "1")
  ∧ ∃ m : SimNode float,
      createNodeMap [node_one] !! js_String (IdStr "1") = Some m
      ∧ js_String (node_id (node m)) = js_String (IdNum 1).
Proof.
  assert (Heq : js_String (IdNum 1) = js_String (IdStr "1")) by reflexivity.
  split; [exact Heq|].
  apply (proj1 (id_comparisons (F:=float) (IdNum 1) (IdStr "1") Heq) [node_one] node_one).
  - apply list_elem_of_In. left. reflexivity.
  - reflexivity.
Defined.

(** Witness of C10: node 7 and a link from [7] to ["7"]. *)
Lemma self_link_no_spring_witness :
  js_String (source self_link) = js_String (target self_link)
  ∧ preresolveLinks (mkGraphResponse [raw (IdNum 7)] ([] ++ self_link :: []))
    = preresolveLinks (mkGraphResponse [raw (IdNum 7)] ([] ++ []))
  ∧ createNodeMap [node_seven] !! js_String (source self_link) = Some node_seven
  ∧ resolveLinks (Some (mkGraphResponse [raw (IdNum 7)] [self_link]))
                 (createNodeMap [node_seven])
    = [mkResolvedLink self_link node_seven node_seven].
Proof.
  assert (Heq : js_String (source self_link) = js_String (target self_link))
    by reflexivity.
  assert (Hn : createNodeMap [node_seven] !! js_String (source self_link)
               = Some node_seven) by (vm_compute; reflexivity).
  pose proof (self_link_no_spring (F:=float) [raw (IdNum 7)] [] [] self_link Heq)
    as (Hpre & _ & Hres).
  split; [exact Heq|]. split; [exact Hpre|]. split; [exact Hn|].
  exact (Hres (createNodeMap [node_seven]) node_seven Hn).
Defined.

(** C2, as stated, fails for a pinned node: dragged to a pointer two pixels
    inside the corner of the svg, it is inside the margin after the tick,
    at x < 4 and y > 536. *)
Lemma pinned_node_leaves_bounds :
  ∃ n, tick [] (Some (IdStr "a"))
            (handlePointerMove (Some (IdStr "a")) (Some svg_rect)
                               pointer_at_corner one_node_a)
       = Some [n]
       ∧ is_dragged (Some (IdStr "a")) n = true
       ∧ PrimFloat.ltb (x n) 4%float = true
       ∧ PrimFloat.ltb 536%float (y n) = true
       ∧ in_bounds n = false.
Proof. eexists. repeat split; vm_compute; reflexivity. Qed.



End Runs.

(** * Facts of exact real arithmetic *)

Section ExactFacts.
Import Exact.
Local Open Scope R_scope.
Implicit Types (n m : SimNode R) (prev : list (SimNode R)) (d : DragId).
Local Abbreviation sqrt := R_sqrt.sqrt.

Ltac rnum :=
  unfold usableWidth, usableHeight, ofZ in *;
  unfold WIDTH, HEIGHT, REPEL_STRENGTH, LINK_DISTANCE, SPRING_STRENGTH,
    CENTER_STRENGTH, DAMPING, DT, MAX_VELOCITY, BOUNDS_MARGIN, marginX, marginY in *;
  cbn [lit add sub mul div fsqrt fmax fmin gtb truthy R_Num] in *;
  unfold Q2R in *; cbn [Qnum Qden] in *.

Lemma ofZ_R z : ofZ z = IZR z.
Proof. rnum. lra. Qed.

Lemma gtb_R (a b : R) : gtb a b = true ↔ b < a.
Proof. cbn [gtb R_Num]. destruct (Rlt_dec b a); split; (done || lra). Qed.

Lemma gtb_R_false (a b : R) : gtb a b = false ↔ a <= b.
Proof. cbn [gtb R_Num]. destruct (Rlt_dec b a); split; (done || lra). Qed.

Lemma within_R (lo hi v : R) : within lo hi v = true ↔ lo <= v <= hi.
Proof.
  unfold within. rewrite andb_true_iff, !negb_true_iff, !gtb_R_false. tauto.
Qed.

Lemma in_bounds_R n :
  in_bounds n = true ↔
  BOUNDS_MARGIN <= x n <= WIDTH - BOUNDS_MARGIN
  ∧ BOUNDS_MARGIN <= y n <= HEIGHT - BOUNDS_MARGIN.
Proof. unfold in_bounds. by rewrite andb_true_iff, !within_R. Qed.

Lemma sqrt_le_bound (a c : R) : 0 <= a → 0 <= c → (sqrt a <= c ↔ a <= c * c).
Proof.
  intros Ha Hc. split; intros Hle.
  - rewrite <- (sqrt_sqrt a Ha). pose proof (sqrt_pos a). nra.
  - rewrite <- (sqrt_square c Hc). by apply sqrt_le_1_alt.
Qed.

Lemma speed_sq_nonneg n : 0 <= vx n * vx n + vy n * vy n.
Proof. nra. Qed.

Lemma speed_R n : speed n = sqrt (vx n * vx n + vy n * vy n).
Proof. reflexivity. Qed.

Lemma speed_le_max n :
  speed n <= MAX_VELOCITY ↔ vx n * vx n + vy n * vy n <= 1225.
Proof.
  rewrite speed_R. replace MAX_VELOCITY with 35 by (rnum; lra).
  rewrite sqrt_le_bound by (try apply speed_sq_nonneg; lra). lra.
Qed.

(** The speed clamp: never above the maximum, never above what came in. *)
Lemma clamp_speed_R n :
  node (clamp_speed n) = node n ∧ x (clamp_speed n) = x n ∧ y (clamp_speed n) = y n
  ∧ vx (clamp_speed n) * vx (clamp_speed n) + vy (clamp_speed n) * vy (clamp_speed n)
    <= 1225
  ∧ vx (clamp_speed n) * vx (clamp_speed n) + vy (clamp_speed n) * vy (clamp_speed n)
    <= vx n * vx n + vy n * vy n.
Proof.
  unfold clamp_speed. set (s := (vx n * vx n + vy n * vy n)%num).
  assert (Hs : s = vx n * vx n + vy n * vy n) by reflexivity.
  destruct (gtb s (MAX_VELOCITY * MAX_VELOCITY)%num) eqn:Hg.
  - apply gtb_R in Hg. replace (MAX_VELOCITY * MAX_VELOCITY)%num with 1225 in Hg
      by (rnum; lra).
    cbn [node x y vx vy]. repeat split.
    all: replace (MAX_VELOCITY / fsqrt s)%num with (35 / sqrt s) by (rnum; lra).
    all: assert (Hr : 0 < sqrt s) by (apply sqrt_lt_R0; lra).
    all: assert (Hrr : sqrt s * sqrt s = s) by (apply sqrt_sqrt; lra).
    all: cbn [mul add R_Num].
    all: replace (vx n * (35 / sqrt s) * (vx n * (35 / sqrt s))
                  + vy n * (35 / sqrt s) * (vy n * (35 / sqrt s)))
           with ((vx n * vx n + vy n * vy n) * 1225 / (sqrt s * sqrt s))
           by (field; lra).
    all: rewrite Hrr, <- Hs.
    all: replace (s * 1225 / s) with 1225 by (field; lra); lra.
  - apply gtb_R_false in Hg. replace (MAX_VELOCITY * MAX_VELOCITY)%num with 1225 in Hg
      by (rnum; lra).
    repeat split; lra.
Qed.

(** [settle] on a free node, over the speed clamp. *)
Lemma settle_free d n :
  is_dragged d n = false →
  let c := clamp_speed
             (mkSimNode (node n) (x n) (y n)
                ((vx n + (WIDTH / 2 - x n) * CENTER_STRENGTH * DT) * DAMPING)
                ((vy n + (HEIGHT / 2 - y n) * CENTER_STRENGTH * DT) * DAMPING)) in
  settle d n
  = mkSimNode (node n)
      (Rmax BOUNDS_MARGIN (Rmin (WIDTH - BOUNDS_MARGIN) (x n + vx c)))
      (Rmax BOUNDS_MARGIN (Rmin (HEIGHT - BOUNDS_MARGIN) (y n + vy c)))
      (vx c) (vy c).
Proof.
  intros Hd c. unfold settle. rewrite Hd.
  replace (lit 2) with 2 by (rnum; lra).
  fold c. cbn [add_vel node x y vx vy].
  destruct (clamp_speed_R
              (mkSimNode (node n) (x n) (y n)
                ((vx n + (WIDTH / 2 - x n) * CENTER_STRENGTH * DT) * DAMPING)
                ((vy n + (HEIGHT / 2 - y n) * CENTER_STRENGTH * DT) * DAMPING)))
    as (Hn & Hx & Hy & _).
  fold c in Hn, Hx, Hy. cbn [node x y] in Hn, Hx, Hy.
  change (clamp_speed _) with c. rewrite Hn, Hx, Hy. reflexivity.
Qed.



Lemma settle_bounds_free d n :
  is_dragged d n = false →
  BOUNDS_MARGIN <= x (settle d n) <= WIDTH - BOUNDS_MARGIN
  ∧ BOUNDS_MARGIN <= y (settle d n) <= HEIGHT - BOUNDS_MARGIN.
Proof.
  intros Hd. rewrite (settle_free d n Hd). cbn [x y].
  assert (Hw : BOUNDS_MARGIN <= WIDTH - BOUNDS_MARGIN) by (rnum; lra).
  assert (Hh : BOUNDS_MARGIN <= HEIGHT - BOUNDS_MARGIN) by (rnum; lra).
  split; (split; [apply Rmax_l|]); apply Rmax_lub; try done; apply Rmin_l.
Qed.


Lemma tick_phases_bounds ls d prev :
  Forall (λ n, is_dragged d n = false → in_bounds n = true)
         (tick_phases repel_impulse ls d prev).
Proof.
  apply Forall_lookup. intros k n' Hk.
  apply tick_phases_lookup_inv in Hk as (n & Hn & ->). intros Hd.
  apply in_bounds_R, settle_bounds_free. rewrite <- Hd. symmetry.
  apply is_dragged_node, settle_node.
Qed.

Lemma ticks_dragged_position k ls d prev out i n :
  links_ok (length prev) ls → ticks k ls d prev = Some out →
  prev !! i = Some n → is_dragged d n = true →
  ∃ n', out !! i = Some n' ∧ node n' = node n ∧ x n' = x n ∧ y n' = y n.
Proof.
  revert prev n. induction k as [|k IH]; intros prev n Hls Hout Hi Hd; simpl in Hout.
  - injection Hout as <-. by exists n.
  - rewrite tick_refines in Hout by done.
    pose proof (tick_phases_dragged repel_impulse ls d prev i n Hi Hd) as Hi'.
    assert (Hls' : links_ok (length (tick_phases repel_impulse ls d prev)) ls).
    { erewrite tick_length; [done|by apply tick_refines]. }
    destruct (IH _ _ Hls' Hout Hi' Hd) as (n' & Hn' & Hnode & Hx & Hy).
    by exists n'.
Qed.

(** The initializer leaves every node at rest, and the index pairs of its
    payload fit its array: the simulation starts inside the hypotheses of
    the invariants below. *)
Lemma createInitialNodes_speed (rnd : nat → R) (data : GraphResponse) :
  Forall (λ n, speed n <= MAX_VELOCITY) (createInitialNodes rnd data)
  ∧ links_ok (length (createInitialNodes rnd data)) (preresolveLinks data).
Proof.
  split.
  - apply Forall_lookup. intros i n Hn.
    apply createInitialNodes_lookup in Hn as (g & _ & ->).
    apply speed_le_max. unfold place. cbn [vx vy]. rnum. lra.
  - rewrite createInitialNodes_length. apply preresolveLinks_ok.
Qed.

(** * The claims about numbers, in exact real arithmetic *)


(** C2 (as amended).  After one tick or more, every node that is not the
    pinned one lies within the bounds, margin included; the pinned node is
    where it was before the ticks, wherever the pointer had put it. *)
Theorem free_nodes_stay_in_bounds k ls d prev :
  links_ok (length prev) ls →
  ∃ out, ticks (S k) ls d prev = Some out
         ∧ Forall (λ n, is_dragged d n = false →
                        in_bounds n = true
                        ∧ BOUNDS_MARGIN <= x n <= WIDTH - BOUNDS_MARGIN
                        ∧ BOUNDS_MARGIN <= y n <= HEIGHT - BOUNDS_MARGIN) out
         ∧ ∀ i n, prev !! i = Some n → is_dragged d n = true →
                  ∃ n', out !! i = Some n' ∧ x n' = x n ∧ y n' = y n.
Proof.
  intros Hls. destruct (ticks_total (S k) ls d prev Hls) as (out & Hout & Hlen).
  exists out. split; [done|]. split.
  - rewrite ticks_snoc in Hout.
    destruct (ticks_total k ls d prev Hls) as (mid & Hmid & Hlenmid).
    rewrite Hmid in Hout. rewrite tick_refines in Hout by (by rewrite Hlenmid).
    injection Hout as <-.
    eapply Forall_impl; [apply tick_phases_bounds|]. simpl.
    intros n Hn Hd. split; [by apply Hn|]. by apply in_bounds_R, Hn.
  - intros i n Hi Hd.
    destruct (ticks_dragged_position (S k) ls d prev out i n Hls Hout Hi Hd)
      as (n' & Hn' & _ & Hx & Hy).
    by exists n'.
Qed.


(** *** The initial grid *)

Lemma ceilZ_ge (a : R) : a <= IZR (ceilZ a).
Proof.
  cbn [ceilZ R_Num]. unfold ceil. rewrite minus_IZR. destruct (archimed (- a)) as [_ Hup]. lra.
Qed.



Lemma grid_cols_pos (count : nat) : (1 <= grid_cols (F:=R) count)%Z.
Proof. unfold grid_cols. lia. Qed.

Lemma grid_rows_pos (count : nat) : (1 <= grid_rows (F:=R) count)%Z.
Proof. unfold grid_rows. lia. Qed.

Lemma usable_R : usableWidth = 928 ∧ usableHeight = 508.
Proof. split; rnum; lra. Qed.




(** The row of a node is below the number of rows. *)
Lemma row_lt_rows (count index : nat) :
  (index < count)%nat →
  (0 <= Z.of_nat index / grid_cols (F:=R) count < grid_rows (F:=R) count)%Z.
Proof.
  intros Hi. pose proof (grid_cols_pos count) as Hc.
  set (cols := grid_cols (F:=R) count) in *.
  split; [apply Z.div_pos; lia|].
  apply lt_IZR. unfold grid_rows. fold cols.
  eapply Rlt_le_trans; [|apply IZR_le, Z.le_max_r].
  eapply Rlt_le_trans; [|apply ceilZ_ge]. rewrite !ofZ_R.
  change (@div R R_Num) with Rdiv.
  assert (Hcols : 0 < IZR cols) by (apply IZR_lt; lia).
  apply Rmult_lt_reg_r with (IZR cols); [done|].
  unfold Rdiv. rewrite Rmult_assoc, Rinv_l, Rmult_1_r by lra.
  rewrite <- mult_IZR. apply IZR_lt.
  pose proof (Z.mul_div_le (Z.of_nat index) cols). lia.
Qed.





(** Witness of C2: the same node, one tick. *)
Lemma free_nodes_stay_in_bounds_witness :
  links_ok (length Samples.lone_real) []
  ∧ ∃ out, ticks 1 [] None Samples.lone_real = Some out
           ∧ Forall (λ n, is_dragged None n = false →
                          in_bounds n = true
                          ∧ BOUNDS_MARGIN <= x n <= WIDTH - BOUNDS_MARGIN
                          ∧ BOUNDS_MARGIN <= y n <= HEIGHT - BOUNDS_MARGIN) out.
Proof.
  assert (Hls : links_ok (length Samples.lone_real) []) by constructor.
  split; [exact Hls|].
  destruct (free_nodes_stay_in_bounds 0 [] None Samples.lone_real Hls)
    as (out & Hout & Hb & _).
  exists out. split; [exact Hout | exact Hb].
Defined.


End ExactFacts.

(** * More facts that hold in every arithmetic *)

Section MoreCoreFacts.
Context {F : Type} `{Num F}.
Implicit Types (n m : SimNode F) (u prev : list (SimNode F)) (d : DragId).

Lemma spring_link_Some d l u u' :
  spring_link d l u = Some u' →
  (l.1 < length u ∧ l.2 < length u)%nat ∧ length u' = length u.
Proof.
  unfold spring_link. destruct (u !! l.1) as [a|] eqn:Ea; [|done].
  destruct (u !! l.2) as [b|] eqn:Eb; [|done]. intros [= <-].
  split; [split; by eapply lookup_lt_Some|].
  destruct (is_dragged d a), (is_dragged d b); simpl; by rewrite ?length_alter.
Qed.

Lemma spring_all_Some d ls u u' :
  spring_all d ls u = Some u' → links_ok (length u) ls.
Proof.
  revert u. induction ls as [|l ls IH]; intros u; simpl; [constructor|].
  destruct (spring_link d l u) as [u1|] eqn:E1; [|done]. intros Hu'.
  apply spring_link_Some in E1 as [Hl Hlen]. constructor; [done|].
  rewrite <- Hlen. by apply IH.
Qed.

Lemma tick_Some_inv ls d prev out :
  tick ls d prev = Some out → prev = [] ∨ links_ok (length prev) ls.
Proof.
  unfold tick. case_bool_decide as Hz.
  - left. by destruct prev.
  - right. destruct (spring_all d ls (repel_all d prev)) as [u|] eqn:Hs; [|done].
    apply spring_all_Some in Hs.
    by rewrite (frames_length _ _ (proj1 (repel_all_lookup d prev))) in Hs.
Qed.

(** X1.  A tick yields an array exactly when the array is empty or every
    link index lies inside it; otherwise it throws. *)
Theorem tick_succeeds_iff ls d prev :
  is_Some (tick ls d prev) ↔ prev = [] ∨ links_ok (length prev) ls.
Proof.
  split.
  - intros [out Hout]. by eapply tick_Some_inv.
  - intros [->|Hls]; [by eexists|]. rewrite tick_refines by done. by eexists.
Qed.

(** *** Pointer moves *)

Lemma is_dragged_same_id d n m :
  is_dragged d n = true → is_dragged d m = true → node_id (node n) = node_id (node m).
Proof.
  unfold is_dragged, strict_eq. destruct d as [c|]; [|done].
  rewrite !bool_decide_eq_true. congruence.
Qed.

(** X2.  With pairwise distinct node ids a pointer move rewrites exactly
    the dragged node: it goes to the pointer with zero velocity, every
    other entry of the array is the same as before. *)
Theorem pointer_move_rewrites_one d rect (e : PointerEvent F) prev k n :
  NoDup ((λ m, node_id (node m)) <$> prev) →
  falsy d = false → prev !! k = Some n → is_dragged d n = true →
  handlePointerMove d (Some rect) e prev
  = <[k := mkSimNode (node n) (pointer_x e rect) (pointer_y e rect) (lit 0) (lit 0)]> prev.
Proof.
  intros Hnd Hd Hk Hn. unfold handlePointerMove. rewrite Hd.
  case_bool_decide as Hz; [destruct prev; [done|discriminate]|].
  apply list_eq. intros i. rewrite list_lookup_fmap.
  destruct (decide (i = k)) as [->|Hik].
  - rewrite list_lookup_insert_eq by (by eapply lookup_lt_Some).
    rewrite Hk. simpl. by rewrite Hn.
  - rewrite list_lookup_insert_ne by done.
    destruct (prev !! i) as [m|] eqn:Hi; [|done]. simpl.
    destruct (is_dragged d m) eqn:Hm; [|done]. exfalso. apply Hik.
    eapply (NoDup_lookup _ i k (node_id (node m)) Hnd).
    + by rewrite list_lookup_fmap, Hi.
    + rewrite list_lookup_fmap, Hk. simpl. f_equal. by eapply is_dragged_same_id.
Qed.

(** X3.  A pointer move keeps the length, the order and the identity of
    the nodes, leaves every node that is not dragged as it is, and doing
    the same move twice is doing it once. *)
Theorem pointer_move_frame d svg (e : PointerEvent F) prev :
  node <$> handlePointerMove d svg e prev = node <$> prev
  ∧ (∀ i n, prev !! i = Some n → is_dragged d n = false →
            handlePointerMove d svg e prev !! i = Some n)
  ∧ handlePointerMove d svg e (handlePointerMove d svg e prev)
    = handlePointerMove d svg e prev.
Proof.
  unfold handlePointerMove. destruct (falsy d); [done|].
  destruct svg as [rect|]; [|done].
  case_bool_decide as Hz; [by rewrite Hz|].
  rewrite length_fmap. rewrite bool_decide_eq_false_2 by done.
  split; [|split].
  - rewrite <- list_fmap_compose. apply list_fmap_ext. intros i m _. simpl.
    by destruct (is_dragged d m).
  - intros i n Hi Hn. by rewrite list_lookup_fmap, Hi; simpl; rewrite Hn.
  - rewrite <- list_fmap_compose. apply list_fmap_ext. intros i m _. simpl.
    destruct (is_dragged d m) eqn:Hm.
    + assert (Hm' : is_dragged d (mkSimNode (node m) (pointer_x e rect)
                                    (pointer_y e rect) (lit 0) (lit 0)) = true)
        by exact Hm.
      by rewrite Hm'.
    + by rewrite Hm.
Qed.

(** *** The node map, the index map and the two link resolutions together *)

Lemma createNodeMap_snoc u n :
  createNodeMap (u ++ [n]) = <[js_String (node_id (node n)) := n]> (createNodeMap u).
Proof. unfold createNodeMap. by rewrite foldl_app. Qed.

Lemma indexById_snoc (gs : list GraphNode) g :
  indexById (gs ++ [g]) = <[js_String (node_id g) := length gs]> (indexById gs).
Proof.
  unfold indexById. rewrite imap_app, foldl_app. simpl.
  by rewrite Nat.add_0_r.
Qed.

Lemma createNodeMap_lookup_last u s :
  createNodeMap u !! s = last (filter (λ n, js_String (node_id (node n)) = s) u).
Proof.
  revert s. induction u as [|n u IH] using rev_ind; intros s; [done|].
  rewrite createNodeMap_snoc, filter_app, filter_cons, filter_nil.
  destruct (decide (js_String (node_id (node n)) = s)) as [<-|Hne].
  - by rewrite lookup_insert_eq, last_snoc.
  - by rewrite lookup_insert_ne, app_nil_r.
Qed.

Lemma createNodeMap_lookup_own u n :
  NoDup ((λ n, js_String (node_id (node n))) <$> u) → n ∈ u →
  createNodeMap u !! js_String (node_id (node n)) = Some n.
Proof.
  intros Hnd Hn.
  destruct (createNodeMap_lookup_is_Some u n Hn) as [m Hm]. rewrite Hm. f_equal.
  apply createNodeMap_lookup_Some in Hm as [Hin Hkey].
  apply list_elem_of_lookup in Hn as [i Hi]. apply list_elem_of_lookup in Hin as [j Hj].
  assert (i = j) as ->; [|congruence].
  eapply (NoDup_lookup _ i j _ Hnd).
  - by rewrite list_lookup_fmap, Hi.
  - rewrite list_lookup_fmap, Hj. simpl. by rewrite Hkey.
Qed.

(** X4.  Looking an id up in the node map gives the last node of the array
    whose id has that string coercion; so with pairwise distinct coerced
    ids every node is found under its own id. *)
Theorem createNodeMap_last u :
  (∀ s, createNodeMap u !! s
        = last (filter (λ n, js_String (node_id (node n)) = s) u))
  ∧ (NoDup ((λ n, js_String (node_id (node n))) <$> u) →
     ∀ n, n ∈ u → createNodeMap u !! js_String (node_id (node n)) = Some n).
Proof.
  split.
  - intros s. apply createNodeMap_lookup_last.
  - intros Hnd n Hn. by apply createNodeMap_lookup_own.
Qed.

(** The node map holds, for each key, the node at the index the index map
    holds for it. *)
Lemma createNodeMap_indexById u s :
  createNodeMap u !! s = indexById (node <$> u) !! s ≫= (u !!.).
Proof.
  induction u as [|n u IH] using rev_ind; [done|].
  rewrite createNodeMap_snoc, fmap_app. simpl. rewrite indexById_snoc, length_fmap.
  destruct (decide (js_String (node_id (node n)) = s)) as [<-|Hne].
  - rewrite !lookup_insert_eq. simpl.
    by rewrite lookup_app_r, Nat.sub_diag.
  - rewrite !lookup_insert_ne by done. rewrite IH.
    destruct (indexById (node <$> u) !! s) as [i|] eqn:Hi; [|done]. simpl.
    apply indexById_lt in Hi. rewrite length_fmap in Hi.
    by rewrite lookup_app_l.
Qed.

(** X5.  The simulation and the renderer agree on the endpoints of a link:
    when the node array carries the nodes of the payload, a link that
    pre-resolution turns into the index pair (si, ti) is resolved by
    [resolveLinks] to the nodes at si and ti; and a link that
    [resolveLinks] resolves is pre-resolved unless its two endpoints have
    the same string coercion. *)
Theorem resolutions_agree (data : GraphResponse) (sims : list (SimNode F))
    (l : GraphLink) :
  node <$> sims = nodes data →
  (∀ si ti, preresolve_one (indexById (nodes data)) l = Some (si, ti) →
     ∃ a b, sims !! si = Some a ∧ sims !! ti = Some b ∧ si ≠ ti
            ∧ resolve_one (createNodeMap sims) l = Some (mkResolvedLink l a b))
  ∧ (is_Some (resolve_one (createNodeMap sims) l) →
     js_String (source l) ≠ js_String (target l) →
     is_Some (preresolve_one (indexById (nodes data)) l)).
Proof.
  intros Hnodes. unfold preresolve_one, resolve_one.
  rewrite !createNodeMap_indexById, Hnodes. split.
  - intros si ti Hpre.
    destruct (indexById (nodes data) !! js_String (source l)) as [i|] eqn:Ei; [|done].
    destruct (indexById (nodes data) !! js_String (target l)) as [j|] eqn:Ej; [|done].
    case_bool_decide as Hij; [done|]. injection Hpre as <- <-. simpl.
    apply indexById_lt in Ei, Ej. rewrite <- Hnodes, length_fmap in Ei, Ej.
    destruct (lookup_lt_is_Some_2 sims i Ei) as [a Ha].
    destruct (lookup_lt_is_Some_2 sims j Ej) as [b Hb].
    exists a, b. by rewrite Ha, Hb.
  - intros Hres Hne.
    destruct (indexById (nodes data) !! js_String (source l)) as [i|] eqn:Ei;
      [|by destruct Hres].
    destruct (indexById (nodes data) !! js_String (target l)) as [j|] eqn:Ej;
      [|simpl in Hres; destruct (sims !! i); by destruct Hres].
    case_bool_decide as Hij; [|by eexists]. subst j. exfalso. apply Hne.
    pose proof (createNodeMap_indexById sims (js_String (source l))) as Hs.
    pose proof (createNodeMap_indexById sims (js_String (target l))) as Ht.
    rewrite Hnodes, Ei in Hs. rewrite Hnodes, Ej in Ht. simpl in Hs, Ht, Hres.
    destruct (sims !! i) as [a|] eqn:Ha; [|by destruct Hres].
    apply createNodeMap_lookup_Some in Hs as [_ <-].
    by apply createNodeMap_lookup_Some in Ht as [_ <-].
Qed.

(** X6.  Every link that [resolveLinks] returns over the map of the
    current array points to two nodes of that array whose ids coerce to
    the strings of the link's endpoints, and no more links come back than
    went in. *)
Theorem resolved_links_sound (data : GraphResponse) (sims : list (SimNode F)) :
  Forall (λ r, rl_link r ∈ links data
               ∧ rl_source r ∈ sims ∧ rl_target r ∈ sims
               ∧ js_String (node_id (node (rl_source r))) = js_String (source (rl_link r))
               ∧ js_String (node_id (node (rl_target r))) = js_String (target (rl_link r)))
         (resolveLinks (Some data) (createNodeMap sims))
  ∧ (length (resolveLinks (Some data) (createNodeMap sims)) ≤ length (links data))%nat.
Proof.
  split.
  - apply Forall_forall. intros r Hr. simpl in Hr.
    apply list_elem_of_omap in Hr as (l & Hl & Hres).
    apply resolve_one_Some in Hres as (a & b & Ha & Hb & ->). simpl.
    apply createNodeMap_lookup_Some in Ha as [? ?].
    apply createNodeMap_lookup_Some in Hb as [? ?]. done.
  - simpl. induction (links data) as [|l ls IH]; csimpl; [done|].
    destruct (resolve_one (createNodeMap sims) l); csimpl; lia.
Qed.

End MoreCoreFacts.

(** * Search, selection and dimming *)

Section SearchFacts.
Variable toLowerCase : string → string.
Context {F : Type}.
Implicit Types (n : SimNode F) (g : GraphNode) (term : string).

Lemma prefix_spec (sub s : string) :
  String.prefix sub s = true ↔ ∃ post : string, s = (sub ++ post)%string.
Proof.
  revert s. induction sub as [|c sub IH]; intros s.
  - split; [intros _; by exists s|]. intros _. by destruct s.
  - destruct s as [|c' s]; simpl.
    + split; [done|]. by intros [post [=]].
    + destruct (Ascii.ascii_dec c c') as [->|Hne].
      * rewrite IH. split; intros [post Hp]; exists post; simpl in *.
        -- rewrite Hp. reflexivity.
        -- change (String c' s = String c' (sub +:+ post)) in Hp. by injection Hp.
      * split; [done|]. intros [post Hp].
        change (String c' s = String c (sub +:+ post)) in Hp. injection Hp as ? ?.
        by subst.
Qed.

Lemma includes_spec (s sub : string) : includes s sub = true ↔ occurs_in sub s.
Proof.
  unfold occurs_in. induction s as [|c s IH].
  - change (includes EmptyString sub) with (String.prefix sub EmptyString || false).
    rewrite orb_false_r, prefix_spec. split.
    + intros [post Hp]. by exists EmptyString, post.
    + intros (pre & post & Hp). destruct pre; [by exists post|done].
  - change (includes (String c s) sub)
      with (String.prefix sub (String c s) || includes s sub).
    rewrite orb_true_iff, prefix_spec, IH. split.
    + intros [[post Hp]|(pre & post & Hp)].
      * by exists EmptyString, post.
      * exists (String c pre), post. rewrite Hp. reflexivity.
    + intros (pre & post & Hp). destruct pre as [|c' pre].
      * left. by exists post.
      * right. change (String c s = String c' (pre +:+ sub +:+ post)) in Hp.
        injection Hp as -> Hp. by exists pre, post.
Qed.

(** X7.  A node matches a search term exactly when the term is not empty
    and occurs in the lower-cased id, in the lower-cased non-empty label,
    or in the lower-cased text "key value" of one of its properties. *)
Theorem search_match_spec g term :
  nodeMatchesSearchTerm toLowerCase g term = true ↔
  term ≠ EmptyString
  ∧ (occurs_in term (toLowerCase (js_String (node_id g)))
     ∨ (∃ l, label g = Some l ∧ l ≠ EmptyString ∧ occurs_in term (toLowerCase l))
     ∨ (∃ ps k v, properties g = Some ps ∧ (k, v) ∈ ps
                  ∧ occurs_in term (toLowerCase (k ++ " " ++ v)%string))).
Proof.
  unfold nodeMatchesSearchTerm. case_bool_decide as Hterm.
  { split; [done|]. by intros [? _]. }
  destruct (includes (toLowerCase (js_String (node_id g))) term) eqn:Hid.
  { apply includes_spec in Hid. split; [|done]. intros _. split; [done|by left]. }
  assert (Hnid : ¬ occurs_in term (toLowerCase (js_String (node_id g))))
    by (rewrite <- includes_spec; congruence).
  destruct (label g) as [l|] eqn:Hl.
  - case_bool_decide as Hle; simpl.
    + transitivity (match properties g with
                    | Some ps => existsb (λ kv, includes (toLowerCase (kv.1 ++ " " ++ kv.2)%string) term) ps
                    | None => false end = true); [done|].
      destruct (properties g) as [ps|] eqn:Hps.
      * rewrite existsb_exists. split.
        -- intros ([k v] & Hin & Hinc). apply includes_spec in Hinc.
           split; [done|]. right; right. exists ps, k, v.
           split; [done|]. split; [by apply list_elem_of_In|done].
        -- intros [_ [?|[(l' & [= <-] & ? & _)|(ps' & k & v & [= <-] & Hin & Hocc)]]];
             try done.
           exists (k, v). split; [by apply list_elem_of_In|by apply includes_spec].
      * split; [done|].
        intros [_ [?|[(l' & [= <-] & ? & _)|(ps' & k & v & ? & _)]]]; done.
    + destruct (includes (toLowerCase l) term) eqn:Hlab.
      * apply includes_spec in Hlab. split; [|done]. intros _.
        split; [done|]. right; left. by exists l.
      * assert (Hnl : ¬ occurs_in term (toLowerCase l))
          by (rewrite <- includes_spec; congruence).
        destruct (properties g) as [ps|] eqn:Hps.
        -- rewrite existsb_exists. split.
           ++ intros ([k v] & Hin & Hinc). apply includes_spec in Hinc.
              split; [done|]. right; right. exists ps, k, v.
              split; [done|]. split; [by apply list_elem_of_In|done].
           ++ intros [_ [?|[(l' & [= <-] & _ & ?)|(ps' & k & v & [= <-] & Hin & Hocc)]]];
                try done.
              exists (k, v). split; [by apply list_elem_of_In|by apply includes_spec].
        -- split; [done|].
           intros [_ [?|[(l' & [= <-] & _ & ?)|(ps' & k & v & ? & _)]]]; done.
  - destruct (properties g) as [ps|] eqn:Hps.
    + rewrite existsb_exists. split.
      * intros ([k v] & Hin & Hinc). apply includes_spec in Hinc.
        split; [done|]. right; right. exists ps, k, v.
        split; [done|]. split; [by apply list_elem_of_In|done].
      * intros [_ [?|[(l' & ? & _)|(ps' & k & v & [= <-] & Hin & Hocc)]]]; try done.
        exists (k, v). split; [by apply list_elem_of_In|by apply includes_spec].
    + split; [done|]. intros [_ [?|[(l' & ? & _)|(ps' & k & v & ? & _)]]]; done.
Qed.


(** *** Dimming *)

Lemma same_id_sym (a b : Id) : same_id a b = same_id b a.
Proof. unfold same_id. apply bool_decide_ext. split; congruence. Qed.

Lemma selected_not_dimmed (selected : option (SelectedEntity F)) term n :
  isSelectedNode selected n = true → isDimmed toLowerCase selected term n = false.
Proof. intros Hn. unfold isDimmed. rewrite Hn. by destruct (hasFocus _ _). Qed.

Lemma match_not_dimmed (selected : option (SelectedEntity F)) term n :
  nodeMatchesSearchTerm toLowerCase (node n) term = true →
  isDimmed toLowerCase selected term n = false.
Proof.
  intros Hn. unfold isDimmed. rewrite Hn.
  by destruct (hasFocus _ _), (isSelectedNode _ _).
Qed.

(** X9.  What is dimmed: nothing without a selection and a search term; a
    node that is selected or that matches the search never; and a link
    that stays bright without being the selected link has an endpoint that
    stays bright.  While a link is selected, a node (also an endpoint of
    that link) is dimmed exactly when it does not match the search. *)
Theorem dimming_rules (selected : option (SelectedEntity F)) term :
  (hasFocus selected term = false →
     (∀ n, isDimmed toLowerCase selected term n = false)
     ∧ (∀ r, isDimmedLink toLowerCase selected term r = false))
  ∧ (∀ n, isSelectedNode selected n = true ∨
          nodeMatchesSearchTerm toLowerCase (node n) term = true →
          isDimmed toLowerCase selected term n = false)
  ∧ (∀ r : ResolvedLink F,
       isDimmedLink toLowerCase selected term r = false →
       hasFocus selected term = true →
       isSelectedLink selected (rl_link r) = false →
       isDimmed toLowerCase selected term (rl_source r) = false
       ∨ isDimmed toLowerCase selected term (rl_target r) = false)
  ∧ (∀ l s t n, selected = Some (SelLink l s t) →
       isDimmed toLowerCase selected term n
       = negb (nodeMatchesSearchTerm toLowerCase (node n) term)).
Proof.
  split; [|split; [|split]].
  - intros Hf. split; intros; unfold isDimmed, isDimmedLink; by rewrite Hf.
  - intros n [Hn|Hn]; [by apply selected_not_dimmed|by apply match_not_dimmed].
  - intros r Hdim Hf Hsel. unfold isDimmedLink in Hdim. rewrite Hf, Hsel in Hdim.
    simpl in Hdim. apply negb_false_iff, orb_true_iff in Hdim as [Ht|Hs].
    + unfold touchesSelectedNode in Ht. destruct selected as [[m|]|]; try done.
      apply orb_true_iff in Ht as [Ht|Ht]; [left|right];
        apply selected_not_dimmed; unfold isSelectedNode; by rewrite same_id_sym.
    + apply orb_true_iff in Hs as [Hs|Hs]; [left|right]; by apply match_not_dimmed.
  - intros l s t n ->. reflexivity.
Qed.

Lemma find_first {A} (f : A → bool) (l : list A) (m : A) :
  List.find f l = Some m →
  ∃ i, l !! i = Some m ∧ f m = true
       ∧ ∀ j a, (j < i)%nat → l !! j = Some a → f a = false.
Proof.
  induction l as [|a l IH]; simpl; [done|].
  destruct (f a) eqn:Hfa.
  - intros [= <-]. exists 0%nat. split; [done|]. split; [done|]. intros; lia.
  - intros Hfind. destruct (IH Hfind) as (i & Hi & Hm & Hfirst).
    exists (S i). split; [done|]. split; [done|].
    intros [|j] b Hj Hb; simpl in Hb; [congruence|]. apply (Hfirst j); [lia|done].
Qed.

(** X10.  A click on a search match selects a node of the array with the
    same coerced id, the first such one; with pairwise distinct coerced ids
    it is the node of the clicked match, the one the node map holds too. *)
Theorem select_match_finds (sims : list (SimNode F)) g
    (selected : option (SelectedEntity F)) :
  g ∈ node <$> sims →
  ∃ m i, select_match sims g selected = Some (SelNode m)
       ∧ sims !! i = Some m
       ∧ js_String (node_id (node m)) = js_String (node_id g)
       ∧ (∀ j n, (j < i)%nat → sims !! j = Some n →
                 js_String (node_id (node n)) ≠ js_String (node_id g))
       ∧ (NoDup ((λ n, js_String (node_id (node n))) <$> sims) →
          node m = g ∧ createNodeMap sims !! js_String (node_id g) = Some m).
Proof.
  intros Hg. apply list_elem_of_fmap in Hg as (n0 & -> & Hn0).
  unfold select_match.
  destruct (List.find (λ n, same_id (node_id (node n)) (node_id (node n0))) sims)
    as [m|] eqn:Hfind.
  - apply find_first in Hfind as (i & Hi & Hsame & Hfirst).
    assert (Hin : m ∈ sims) by (by eapply list_elem_of_lookup_2).
    unfold same_id in Hsame. apply bool_decide_eq_true in Hsame.
    exists m, i. split; [done|]. split; [done|]. split; [done|]. split.
    { intros j n Hj Hn. specialize (Hfirst j n Hj Hn). unfold same_id in Hfirst.
      by apply bool_decide_eq_false in Hfirst. }
    intros Hnd.
    assert (m = n0) as ->.
    { apply list_elem_of_lookup in Hn0 as [j Hj].
      assert (i = j) as ->; [|congruence].
      eapply (NoDup_lookup _ i j _ Hnd).
      - by rewrite list_lookup_fmap, Hi.
      - rewrite list_lookup_fmap, Hj. simpl. by rewrite Hsame. }
    split; [done|]. by apply createNodeMap_lookup_own.
  - exfalso. apply list_elem_of_In in Hn0.
    pose proof (find_none _ _ Hfind n0 Hn0) as Hno. simpl in Hno.
    unfold same_id in Hno. by rewrite bool_decide_eq_true_2 in Hno.
Qed.

End SearchFacts.

(** * Label colours *)

Section LabelColors.

Lemma ascii_compare_trans_le (a b c : Ascii.ascii) :
  Ascii.compare a b ≠ Gt → Ascii.compare b c ≠ Gt → Ascii.compare a c ≠ Gt.
Proof.
  unfold Ascii.compare. rewrite !N.compare_le_iff. intros. by etrans.
Qed.

Lemma string_compare_Lt_trans (a b c : string) :
  String.compare a b = Lt → String.compare b c = Lt → String.compare a c = Lt.
Proof.
  revert b c. induction a as [|x a IH]; intros [|y b] [|z c]; simpl; try done.
  unfold Ascii.compare. 
  destruct (N.compare_spec (Ascii.N_of_ascii x) (Ascii.N_of_ascii y)) as [Exy|Lxy|Gxy];
    try done;
    destruct (N.compare_spec (Ascii.N_of_ascii y) (Ascii.N_of_ascii z)) as [Eyz|Lyz|Gyz];
    try done; intros Hab Hbc.
  - rewrite Exy, Eyz, N.compare_refl. by eapply IH.
  - rewrite Exy. by apply N.compare_lt_iff in Lyz as ->.
  - rewrite <- Eyz. by apply N.compare_lt_iff in Lxy as ->.
  - assert (Ascii.N_of_ascii x < Ascii.N_of_ascii z)%N as Hlt by (by etrans).
    by apply N.compare_lt_iff in Hlt as ->.
Qed.

#[local] Instance string_le_trans : Transitive string_le.
Proof.
  intros a b c. unfold string_le, String.leb. intros Hab Hbc.
  destruct (String.compare a b) eqn:Eab; [|clear Hab|done].
  - apply String.compare_eq_iff in Eab as ->. done.
  - destruct (String.compare b c) eqn:Ebc; [|clear Hbc|done].
    + apply String.compare_eq_iff in Ebc as <-. by rewrite Eab.
    + by rewrite (string_compare_Lt_trans a b c).
Qed.

#[local] Instance string_le_antisym : AntiSymm (=) string_le.
Proof. intros a b. apply String.leb_antisym. Qed.

#[local] Instance string_le_total : Total string_le.
Proof. intros a b. apply String.leb_total. Qed.

Lemma set_order_acc (acc xs : list string) :
  NoDup acc →
  let out := foldl (λ acc x, if bool_decide (x ∈ acc) then acc else acc ++ [x]) acc xs in
  NoDup out ∧ ∀ x, x ∈ out ↔ x ∈ acc ∨ x ∈ xs.
Proof.
  revert acc. induction xs as [|y xs IH]; intros acc Hnd; simpl.
  - split; [done|]. intros x. rewrite elem_of_nil. tauto.
  - case_bool_decide as Hy.
    + destruct (IH acc Hnd) as [Hnd' Hel]. split; [done|].
      intros x. rewrite Hel, elem_of_cons. split; [tauto|].
      intros [?|[->|?]]; tauto.
    + destruct (IH (acc ++ [y])) as [Hnd' Hel].
      { apply NoDup_app. split; [done|]. split; [|apply NoDup_singleton].
        intros x Hx Hin. apply list_elem_of_singleton in Hin as ->. done. }
      split; [done|]. intros x.
      rewrite Hel, elem_of_app, list_elem_of_singleton, elem_of_cons. tauto.
Qed.

Lemma set_order_spec (xs : list string) :
  NoDup (set_order xs) ∧ ∀ x, x ∈ set_order xs ↔ x ∈ xs.
Proof.
  destruct (set_order_acc [] xs (NoDup_nil_2)) as [Hnd Hel]. split; [done|].
  intros x. unfold set_order. rewrite Hel, elem_of_nil. tauto.
Qed.

Lemma sorted_labels_perm (d : GraphResponse) :
  sorted_labels d ≡ₚ set_order (omap (λ g, truthy_label (label g)) (nodes d)).
Proof. apply merge_sort_Permutation. Qed.

Lemma sorted_labels_NoDup (d : GraphResponse) : NoDup (sorted_labels d).
Proof. rewrite sorted_labels_perm. apply set_order_spec. Qed.

Lemma sorted_labels_elem (d : GraphResponse) s :
  s ∈ sorted_labels d ↔ s ≠ EmptyString ∧ ∃ g, g ∈ nodes d ∧ label g = Some s.
Proof.
  rewrite sorted_labels_perm, (proj2 (set_order_spec _)), list_elem_of_omap.
  split.
  - intros (g & Hg & Hl). unfold truthy_label in Hl.
    destruct (label g) as [l|] eqn:El; [|done]. case_bool_decide; [done|].
    injection Hl as ->. split; [done|]. by exists g.
  - intros (Hne & g & Hg & Hl). exists g. split; [done|].
    unfold truthy_label. rewrite Hl. by rewrite bool_decide_eq_false_2.
Qed.

Lemma color_map_snoc (ls : list string) x :
  foldl (λ (m : gmap string string) p, <[p.2 := chart_color p.1]> m) ∅
        (imap pair (ls ++ [x]))
  = <[x := chart_color (length ls)]>
      (foldl (λ (m : gmap string string) p, <[p.2 := chart_color p.1]> m) ∅
             (imap pair ls)).
Proof. rewrite imap_app, foldl_app. simpl. by rewrite Nat.add_0_r. Qed.

Lemma color_map_lookup (ls : list string) s c :
  NoDup ls →
  foldl (λ (m : gmap string string) p, <[p.2 := chart_color p.1]> m) ∅
        (imap pair ls) !! s = Some c ↔
  ∃ i, ls !! i = Some s ∧ c = chart_color i.
Proof.
  induction ls as [|x ls IH] using rev_ind; intros Hnd.
  - simpl. rewrite lookup_empty. split; [done|]. by intros (i & Hi & _).
  - apply NoDup_app in Hnd as (Hnd & Hx & _). rewrite color_map_snoc.
    destruct (decide (x = s)) as [->|Hne].
    + rewrite lookup_insert_eq. split.
      * intros [= <-]. exists (length ls). by rewrite lookup_app_r, Nat.sub_diag.
      * intros (i & Hi & ->). f_equal. f_equal.
        destruct (decide (i < length ls)%nat) as [Hlt|Hge].
        -- rewrite lookup_app_l in Hi by done. exfalso.
           apply (Hx s); [by eapply list_elem_of_lookup_2|by left].
        -- apply lookup_lt_Some in Hi. rewrite length_app in Hi. simpl in Hi. lia.
    + rewrite lookup_insert_ne by done. rewrite (IH Hnd). split.
      * intros (i & Hi & ->). exists i. split; [|done].
        rewrite lookup_app_l; [done|]. by eapply lookup_lt_Some.
      * intros (i & Hi & ->). exists i. split; [|done].
        destruct (decide (i < length ls)%nat) as [Hlt|Hge].
        -- by rewrite lookup_app_l in Hi.
        -- rewrite lookup_app_r in Hi by lia.
           destruct (i - length ls)%nat; simpl in Hi; [congruence|done].
Qed.

Lemma chart_color_in (i : nat) : chart_color i ∈ CHART_COLORS.
Proof.
  unfold chart_color.
  destruct (CHART_COLORS !! (i mod length CHART_COLORS)%nat) as [c|] eqn:Hc.
  - by eapply list_elem_of_lookup_2.
  - apply lookup_ge_None in Hc.
    pose proof (Nat.mod_upper_bound i (length CHART_COLORS)). simpl in *. lia.
Qed.


(** X11.  The colour map has exactly the non-empty labels of the payload's
    nodes as keys, every colour is one of the five of the palette, and
    without data the map is empty. *)
Theorem label_colors_keys (d : GraphResponse) :
  (∀ s, is_Some (buildLabelColorMap (Some d) !! s) ↔
        s ≠ EmptyString ∧ ∃ g, g ∈ nodes d ∧ label g = Some s)
  ∧ (∀ s c, buildLabelColorMap (Some d) !! s = Some c → c ∈ CHART_COLORS)
  ∧ buildLabelColorMap None = ∅.
Proof.
  split; [|split; [|done]].
  - intros s. rewrite <- sorted_labels_elem. unfold buildLabelColorMap. split.
    + intros [c Hc]. apply color_map_lookup in Hc as (i & Hi & _);
        [|apply sorted_labels_NoDup]. by eapply list_elem_of_lookup_2.
    + intros Hs. apply list_elem_of_lookup in Hs as [i Hi].
      exists (chart_color i). apply color_map_lookup; [apply sorted_labels_NoDup|].
      by exists i.
  - intros s c Hc. apply color_map_lookup in Hc as (i & _ & ->);
      [|apply sorted_labels_NoDup]. apply chart_color_in.
Qed.


(** X13.  The colour of a label does not depend on the order in which the
    nodes arrive: payloads whose node lists are permutations of each other
    get the same colour map. *)
Theorem label_colors_order_free (d d' : GraphResponse) :
  nodes d ≡ₚ nodes d' →
  buildLabelColorMap (Some d) = buildLabelColorMap (Some d').
Proof.
  intros Hperm. unfold buildLabelColorMap.
  assert (sorted_labels d = sorted_labels d') as ->; [|done].
  apply (Sorted_unique string_le).
  - apply Sorted_merge_sort, _.
  - apply Sorted_merge_sort, _.
  - apply NoDup_Permutation; try apply sorted_labels_NoDup.
    intros s. rewrite !sorted_labels_elem.
    split; intros (Hne & g & Hg & Hl); (split; [done|]); exists g;
      (split; [|done]); [by rewrite <- Hperm|by rewrite Hperm].
Qed.

End LabelColors.

(** * The data layer *)

Section DataFacts.
Context {F : Type}.

(** X14.  A Cypher query that fails, by a rejected fetch, a response that
    is not ok or a body that does not parse, leaves the loaded graph and
    the load error as they were, ends the loading state and leaves a
    message in [cypherError]; where the graph was on screen before the
    query it is on screen after it. *)
Theorem failed_query_keeps_graph (trim : string → string) (st st1 : DataState)
    (q : string) (o : FetchOutcome) (sims : list (SimNode F)) :
  runCypherQuery_start trim st = (st1, Some q) → failed o →
  let st2 := runCypherQuery_settle o st1 in
  q = trim (ds_cypherQuery st) ∧ q ≠ EmptyString
  ∧ ds_data st2 = ds_data st ∧ ds_error st2 = ds_error st
  ∧ ds_cypherQuery st2 = ds_cypherQuery st
  ∧ ds_loading st2 = false ∧ is_Some (ds_cypherError st2)
  ∧ (screen st sims = ScreenGraph → screen st2 sims = ScreenGraph).
Proof.
  unfold runCypherQuery_start. case_bool_decide as Hq; [done|].
  intros [= <- <-] Hfail. split; [done|]. split; [done|].
  destruct o as [t|[json|t]|status ef]; simpl in *; try done;
    repeat split; try done; try (by eexists);
    unfold screen; simpl; by destruct (ds_loading st).
Qed.

(** X15.  The default load always ends the loading state.  When it brings
    a graph, the graph replaces the data and no load error is left; when it
    fails, the old data stays and an error message is set, and the error
    screen shows it, unless the message is empty, in which case no error
    screen is shown. *)
Theorem default_load_outcome (st : DataState) (o : FetchOutcome)
    (sims : list (SimNode F)) :
  let st2 := loadDefaultGraph_settle o (loadDefaultGraph_start st) in
  ds_loading st2 = false ∧ ds_cypherError st2 = None
  ∧ ds_cypherQuery st2 = ds_cypherQuery st
  ∧ (∀ json, o = RespondedOk (inl json) →
       ds_data st2 = Some json ∧ ds_error st2 = None
       ∧ ∀ msg, screen st2 sims ≠ ScreenError msg)
  ∧ (failed o →
       ds_data st2 = ds_data st
       ∧ ∃ m, ds_error st2 = Some m
              ∧ (m ≠ EmptyString → screen st2 sims = ScreenError m)
              ∧ (m = EmptyString → ∀ msg, screen st2 sims ≠ ScreenError msg)).
Proof.
  intros st2.
  assert (Hnoerr : ∀ s : DataState,
            ds_loading s = false →
            ds_error s = None ∨ ds_error s = Some EmptyString →
            ∀ msg, screen s sims ≠ ScreenError msg).
  { intros s Hl He msg. unfold screen. rewrite Hl.
    destruct He as [-> | ->]; destruct (ds_data s); repeat case_bool_decide; done. }
  assert (Herr : ∀ (s : DataState) m,
            ds_loading s = false → ds_error s = Some m → m ≠ EmptyString →
            screen s sims = ScreenError m).
  { intros s m Hl He Hne. unfold screen. rewrite Hl, He. by destruct m. }
  assert (Hfailed : ∀ m, failed o →
            st2 = mkDataState (ds_data st) (Some m) false (ds_cypherQuery st) None →
            ds_data st2 = ds_data st
            ∧ ∃ m', ds_error st2 = Some m'
                    ∧ (m' ≠ EmptyString → screen st2 sims = ScreenError m')
                    ∧ (m' = EmptyString → ∀ msg, screen st2 sims ≠ ScreenError msg)).
  { intros m _ ->. split; [done|]. exists m. split; [done|]. split.
    - intros Hne. by apply Herr.
    - intros ->. apply Hnoerr; [done|by right]. }
  subst st2. destruct o as [t|[json|t]|status ef]; simpl;
    (split; [done|]); (split; [done|]); (split; [done|]).
  - split; [intros json [=]|]. intros Hf. by eapply Hfailed.
  - split; [|intros []]. intros json' [= <-]. split; [done|]. split; [done|].
    apply Hnoerr; [done|by left].
  - split; [intros json [=]|]. intros Hf. by eapply Hfailed.
  - split; [intros json [=]|]. intros Hf. by eapply Hfailed.
Qed.

End DataFacts.

(** * More facts of exact real arithmetic *)

Section MoreExactFacts.
Import Exact.
Local Open Scope R_scope.
Implicit Types (n m : SimNode R) (u prev : list (SimNode R)) (d : DragId).

Ltac rconst :=
  unfold usableWidth, usableHeight, ofZ in *;
  unfold WIDTH, HEIGHT, REPEL_STRENGTH, LINK_DISTANCE, SPRING_STRENGTH,
    CENTER_STRENGTH, DAMPING, DT, MAX_VELOCITY, BOUNDS_MARGIN, marginX, marginY in *;
  cbn [lit add sub mul div fsqrt fmax fmin gtb truthy R_Num] in *;
  unfold Q2R in *; cbn [Qnum Qden] in *.


(** *** Momentum *)







(** *** How far a tick moves a node *)



(** *** The order of the links *)





(** *** The initial positions *)

Lemma cellWidth_pos (count : nat) :
  (1 < grid_cols (F:=R) count)%Z → 0 < cellWidth count.
Proof.
  intros Hc. unfold cellWidth. rewrite (proj2 (Z.ltb_lt _ _) Hc).
  destruct usable_R as [-> _]. rewrite ofZ_R.
  apply Rdiv_lt_0_compat; [lra|]. apply IZR_lt. lia.
Qed.

Lemma cellHeight_pos (count : nat) :
  (1 < grid_rows (F:=R) count)%Z → 0 < cellHeight count.
Proof.
  intros Hc. unfold cellHeight. rewrite (proj2 (Z.ltb_lt _ _) Hc).
  destruct usable_R as [_ ->]. rewrite ofZ_R.
  apply Rdiv_lt_0_compat; [lra|]. apply IZR_lt. lia.
Qed.

(** Two grid offsets that differ by a whole cell or more stay apart under
    the jitter. *)
Lemma jittered_apart (base cell r1 r2 : R) (a b : Z) :
  0 < cell → a ≠ b → 0 <= r1 < 1 → 0 <= r2 < 1 →
  base + IZR a * cell + cell * (2 / 10) * (r1 - 5 / 10)
  ≠ base + IZR b * cell + cell * (2 / 10) * (r2 - 5 / 10).
Proof.
  intros Hcell Hab Hr1 Hr2 Heq.
  assert (Hk : IZR a - IZR b + (2 / 10) * (r1 - r2) = 0).
  { apply (Rmult_eq_reg_l cell); [|lra]. lra. }
  destruct (Z.lt_total a b) as [Hlt|[?|Hgt]]; [|done|].
  - assert (IZR a + 1 <= IZR b) by (rewrite <- plus_IZR; apply IZR_le; lia). lra.
  - assert (IZR b + 1 <= IZR a) by (rewrite <- plus_IZR; apply IZR_le; lia). lra.
Qed.

(** X20.  For [Math.random] in [0, 1) the initializer never puts two nodes
    on the same point. *)
Theorem initial_positions_distinct (rnd : nat → R) (data : GraphResponse)
    (i j : nat) (ni nj : SimNode R) :
  (∀ k, 0 <= rnd k < 1) → i ≠ j →
  createInitialNodes rnd data !! i = Some ni →
  createInitialNodes rnd data !! j = Some nj →
  (x ni, y ni) ≠ (x nj, y nj).
Proof.
  intros Hrnd Hij Hi Hj [= Hx Hy].
  apply createInitialNodes_lookup in Hi as (gi & Hgi & ->).
  apply createInitialNodes_lookup in Hj as (gj & Hgj & ->).
  apply lookup_lt_Some in Hgi, Hgj.
  set (count := length (nodes data)) in *.
  pose proof (grid_cols_pos count) as Hc.
  pose proof (row_lt_rows count i Hgi) as Hri.
  pose proof (row_lt_rows count j Hgj) as Hrj.
  unfold place in Hx, Hy. cbn [x y] in Hx, Hy.
  cbn [add sub mul div R_Num] in Hx, Hy. rewrite !ofZ_R in Hx, Hy.
  replace (lit 0.2) with (2 / 10) in Hx, Hy by (rconst; lra).
  replace (lit 0.5) with (5 / 10) in Hx, Hy by (rconst; lra).
  set (cols := grid_cols (F:=R) count) in *.
  destruct (decide (Z.of_nat i mod cols = Z.of_nat j mod cols)%Z) as [Hcol|Hcol].
  - assert (Hrow : (Z.of_nat i / cols ≠ Z.of_nat j / cols)%Z).
    { intros Hrow. apply Hij, Nat2Z.inj.
      rewrite (Z.div_mod (Z.of_nat i) cols), (Z.div_mod (Z.of_nat j) cols) by lia.
      by rewrite Hcol, Hrow. }
    assert (Hrows : (1 < grid_rows (F:=R) count)%Z) by lia.
    revert Hy. apply jittered_apart; auto using cellHeight_pos.
  - assert (Hcols : (1 < cols)%Z).
    { destruct (decide (cols = 1)%Z) as [E|]; [|lia]. exfalso. apply Hcol.
      by rewrite E, !Z.mod_1_r. }
    revert Hx. apply jittered_apart; auto using cellWidth_pos.
Qed.

End MoreExactFacts.

(** * Pressing, dragging and loading, end to end *)

Section EndToEnd.
Context {F : Type} `{Num F}.

(** X21.  Pressing a node whose id is neither the number 0 nor the empty
    string, moving the pointer and ticking once leaves that node at the
    pointer position with the velocity 0 * DAMPING. *)
Theorem press_drag_tick ls rect (e : PointerEvent F) (prev : list (SimNode F)) k n :
  links_ok (length prev) ls → prev !! k = Some n →
  falsy (Some (node_id (node n))) = false →
  let d := (handleNodePointerDown n).1 in
  ∃ out, tick ls d (handlePointerMove d (Some rect) e prev) = Some out
         ∧ out !! k = Some (mkSimNode (node n) (pointer_x e rect) (pointer_y e rect)
                                      (mul (lit 0) DAMPING) (mul (lit 0) DAMPING))
         ∧ (handleNodePointerDown n).2 = Some (SelNode n).
Proof.
  intros Hls Hk Hf d. subst d. simpl.
  assert (Hd : is_dragged (Some (node_id (node n))) n = true).
  { unfold is_dragged, strict_eq. by apply bool_decide_eq_true. }
  destruct (drag_then_tick ls (Some (node_id (node n))) rect e prev k n Hf Hls Hk Hd)
    as (out & Hout & Hlook).
  by exists out.
Qed.

(** X22.  A default load that brings a graph ends on the graph screen once
    the layout effect has run, and on the no-nodes screen when the graph
    has no nodes; the initializing screen is over by then. *)
Theorem loaded_graph_is_shown (rnd : nat → F) (st : DataState) (json : GraphResponse) :
  let st2 := loadDefaultGraph_settle (RespondedOk (inl json)) (loadDefaultGraph_start st) in
  screen st2 (reset_nodes rnd (ds_data st2))
  = if bool_decide (length (nodes json) = 0%nat) then ScreenNoNodes else ScreenGraph.
Proof.
  simpl. unfold screen, reset_nodes. simpl.
  case_bool_decide as Hz; [done|].
  rewrite createInitialNodes_length. by rewrite bool_decide_eq_false_2.
Qed.

(** X23.  Reset clears the selection, the query text and the query error,
    whatever the default load then brings; a click on Run after it sends no
    request, leaves data, load error and loading state alone and asks for a
    query. *)
Theorem reset_then_run_asks_for_query (trim : string → string) (st : DataState)
    (o : FetchOutcome) :
  trim EmptyString = EmptyString →
  let st2 := loadDefaultGraph_settle o (handleResetClick (F:=F) st).1 in
  (handleResetClick (F:=F) st).2 = None
  ∧ ds_cypherQuery st2 = EmptyString ∧ ds_cypherError st2 = None
  ∧ ds_loading st2 = false
  ∧ ∃ st3, handleRunCypherClick (F:=F) trim st2 = (st3, None, None)
           ∧ ds_data st3 = ds_data st2 ∧ ds_error st3 = ds_error st2
           ∧ ds_loading st3 = false ∧ ds_cypherQuery st3 = EmptyString
           ∧ ds_cypherError st3 = Some "Please enter a Cypher query to run.".
Proof.
  intros Htrim. simpl.
  assert (Hq : ds_cypherQuery
                 (loadDefaultGraph_settle o
                    (loadDefaultGraph_start (setCypherQuery EmptyString st)))
               = EmptyString)
    by (destruct o as [t|[json|t]|status e]; reflexivity).
  assert (Hl : ds_loading
                 (loadDefaultGraph_settle o
                    (loadDefaultGraph_start (setCypherQuery EmptyString st)))
               = false)
    by (destruct o as [t|[json|t]|status e]; reflexivity).
  split; [done|]. split; [exact Hq|].
  split; [by destruct o as [t|[json|t]|status e]|]. split; [exact Hl|].
  unfold handleRunCypherClick, runCypherQuery_start.
  rewrite Hq, Htrim. simpl. eexists. split; [reflexivity|]. simpl.
  by rewrite Hl.
Qed.

End EndToEnd.

(** * Instances of the theorems above *)

Section Instances.
Import Samples Exact.
Local Open Scope R_scope.

Lemma pointer_move_rewrites_one_witness :
  NoDup ((λ m : SimNode float, node_id (node m)) <$> near_pair)
  ∧ falsy (Some (IdNum 1)) = false
  ∧ near_pair !! 0%nat = Some (fnode (IdNum 1) 100 100 0 0)
  ∧ is_dragged (Some (IdNum 1)) (fnode (IdNum 1) 100 100 0 0) = true
  ∧ handlePointerMove (Some (IdNum 1)) (Some svg_rect) pointer_inside near_pair
    = <[0%nat := mkSimNode (node (fnode (IdNum 1) 100 100 0 0))
                  (pointer_x pointer_inside svg_rect)
                  (pointer_y pointer_inside svg_rect) (lit 0) (lit 0)]> near_pair.
Proof.
  assert (Hnd : NoDup ((λ m : SimNode float, node_id (node m)) <$> near_pair))
    by (by apply (bool_decide_unpack _)).
  split; [exact Hnd|]. split; [reflexivity|]. split; [reflexivity|].
  split; [reflexivity|].
  exact (pointer_move_rewrites_one (Some (IdNum 1)) svg_rect pointer_inside near_pair
           0 (fnode (IdNum 1) 100 100 0 0) Hnd eq_refl eq_refl eq_refl).
Defined.

Lemma resolutions_agree_witness :
  node <$> [simA; simB] = nodes payload_AB
  ∧ preresolve_one (indexById (nodes payload_AB)) link_AB = Some (0, 1)%nat
  ∧ ∃ a b, [simA; simB] !! 0%nat = Some a ∧ [simA; simB] !! 1%nat = Some b
           ∧ 0%nat ≠ 1%nat
           ∧ resolve_one (createNodeMap [simA; simB]) link_AB
             = Some (mkResolvedLink link_AB a b).
Proof.
  assert (Hn : node <$> [simA; simB] = nodes payload_AB) by reflexivity.
  assert (Hp : preresolve_one (indexById (nodes payload_AB)) link_AB = Some (0, 1)%nat)
    by (vm_compute; reflexivity).
  split; [exact Hn|]. split; [exact Hp|].
  exact (proj1 (resolutions_agree payload_AB [simA; simB] link_AB Hn) 0%nat 1%nat Hp).
Defined.

Lemma select_match_finds_witness :
  raw (IdStr "B") ∈ node <$> [simA; simB]
  ∧ ∃ m i, select_match [simA; simB] (raw (IdStr "B")) None = Some (SelNode m)
           ∧ [simA; simB] !! i = Some m
           ∧ js_String (node_id (node m)) = js_String (node_id (raw (IdStr "B")))
           ∧ (∀ j n, (j < i)%nat → [simA; simB] !! j = Some n →
                js_String (node_id (node n)) ≠ js_String (node_id (raw (IdStr "B"))))
           ∧ (NoDup ((λ n, js_String (node_id (node n))) <$> [simA; simB]) →
              node m = raw (IdStr "B")
              ∧ createNodeMap [simA; simB] !! js_String (node_id (raw (IdStr "B")))
                = Some m).
Proof.
  assert (Hg : raw (IdStr "B") ∈ node <$> [simA; simB])
    by (apply list_elem_of_In; right; left; reflexivity).
  split; [exact Hg|].
  exact (select_match_finds [simA; simB] (raw (IdStr "B")) None Hg).
Defined.

Lemma label_colors_order_free_witness :
  nodes (mkGraphResponse [mkGraphNode (IdNum 1) (Some "B") None;
                          mkGraphNode (IdNum 2) (Some "A") None] [])
  ≡ₚ nodes (mkGraphResponse [mkGraphNode (IdNum 2) (Some "A") None;
                             mkGraphNode (IdNum 1) (Some "B") None] [])
  ∧ buildLabelColorMap
      (Some (mkGraphResponse [mkGraphNode (IdNum 1) (Some "B") None;
                              mkGraphNode (IdNum 2) (Some "A") None] []))
    = buildLabelColorMap
        (Some (mkGraphResponse [mkGraphNode (IdNum 2) (Some "A") None;
                                mkGraphNode (IdNum 1) (Some "B") None] [])).
Proof.
  assert (Hp : nodes (mkGraphResponse [mkGraphNode (IdNum 1) (Some "B") None;
                                       mkGraphNode (IdNum 2) (Some "A") None] [])
               ≡ₚ nodes (mkGraphResponse [mkGraphNode (IdNum 2) (Some "A") None;
                                          mkGraphNode (IdNum 1) (Some "B") None] []))
    by apply perm_swap.
  split; [exact Hp|]. exact (label_colors_order_free _ _ Hp).
Defined.

Lemma failed_query_keeps_graph_witness :
  let st := mkDataState (Some payload_AB) None false "MATCH (n) RETURN n" None in
  let st1 := mkDataState (Some payload_AB) None true "MATCH (n) RETURN n" None in
  runCypherQuery_start (λ q, q) st = (st1, Some "MATCH (n) RETURN n")
  ∧ failed (RespondedNotOk 500 None)
  ∧ ds_data (runCypherQuery_settle (RespondedNotOk 500 None) st1) = Some payload_AB
  ∧ ds_cypherError (runCypherQuery_settle (RespondedNotOk 500 None) st1)
    = Some "Request failed with status 500"
  ∧ screen (runCypherQuery_settle (RespondedNotOk 500 None) st1) [simA; simB]
    = ScreenGraph.
Proof.
  intros st st1.
  assert (Hs : runCypherQuery_start (λ q, q) st = (st1, Some "MATCH (n) RETURN n"))
    by reflexivity.
  split; [exact Hs|]. split; [exact I|].
  pose proof (failed_query_keeps_graph (λ q, q) st st1 "MATCH (n) RETURN n"
                (RespondedNotOk 500 None) [simA; simB] Hs I)
    as (_ & _ & Hdata & _ & _ & _ & _ & Hscreen).
  split; [exact Hdata|]. split; [reflexivity|]. exact (Hscreen eq_refl).
Defined.





Lemma initial_positions_distinct_witness :
  (∀ k, 0 <= rnd_zero_real k < 1) ∧ 0%nat ≠ 1%nat
  ∧ createInitialNodes rnd_zero_real payload_AB !! 0%nat
    = Some (place rnd_zero_real 2 0 (raw (IdStr "A")))
  ∧ createInitialNodes rnd_zero_real payload_AB !! 1%nat
    = Some (place rnd_zero_real 2 1 (raw (IdStr "B")))
  ∧ (x (place rnd_zero_real 2 0 (raw (IdStr "A"))),
     y (place rnd_zero_real 2 0 (raw (IdStr "A"))))
    ≠ (x (place rnd_zero_real 2 1 (raw (IdStr "B"))),
       y (place rnd_zero_real 2 1 (raw (IdStr "B")))).
Proof.
  assert (Hrnd : ∀ k, 0 <= rnd_zero_real k < 1)
    by (intros k; unfold rnd_zero_real; lra).
  assert (Hne : 0%nat ≠ 1%nat) by lia.
  split; [exact Hrnd|]. split; [exact Hne|]. split; [reflexivity|].
  split; [reflexivity|].
  exact (initial_positions_distinct rnd_zero_real payload_AB 0 1 _ _ Hrnd Hne
           eq_refl eq_refl).
Defined.

Lemma press_drag_tick_witness :
  links_ok (length near_pair) [(0, 1)%nat]
  ∧ near_pair !! 0%nat = Some (fnode (IdNum 1) 100 100 0 0)
  ∧ falsy (Some (node_id (node (fnode (IdNum 1) 100 100 0 0)))) = false
  ∧ ∃ out, tick [(0, 1)%nat] (Some (IdNum 1))
                (handlePointerMove (Some (IdNum 1)) (Some svg_rect) pointer_inside
                                   near_pair) = Some out
           ∧ out !! 0%nat
             = Some (mkSimNode (node (fnode (IdNum 1) 100 100 0 0))
                               (pointer_x pointer_inside svg_rect)
                               (pointer_y pointer_inside svg_rect)
                               (mul (lit 0) DAMPING) (mul (lit 0) DAMPING))
           ∧ (handleNodePointerDown (fnode (IdNum 1) 100 100 0 0)).2
             = Some (SelNode (fnode (IdNum 1) 100 100 0 0)).
Proof.
  assert (Hls : links_ok (length near_pair) [(0, 1)%nat])
    by (repeat constructor; simpl; lia).
  split; [exact Hls|]. split; [reflexivity|]. split; [reflexivity|].
  exact (press_drag_tick [(0, 1)%nat] svg_rect pointer_inside near_pair 0
           (fnode (IdNum 1) 100 100 0 0) Hls eq_refl eq_refl).
Defined.

Lemma reset_then_run_asks_for_query_witness :
  let st := mkDataState (Some payload_AB) None false "MATCH (n) RETURN n"
                        (Some "Invalid input") in
  let st2 := loadDefaultGraph_settle (RespondedOk (inl payload_AB))
               (handleResetClick (F:=float) st).1 in
  (λ q : string, q) EmptyString = EmptyString
  ∧ ds_cypherQuery st2 = EmptyString ∧ ds_cypherError st2 = None
  ∧ handleRunCypherClick (F:=float) (λ q, q) st2
    = (mkDataState (Some payload_AB) None false EmptyString
                   (Some "Please enter a Cypher query to run."), None, None).
Proof.
  intros st st2.
  pose proof (reset_then_run_asks_for_query (F:=float) (λ q, q) st
                (RespondedOk (inl payload_AB)) eq_refl)
    as (_ & Hq & He & _ & _).
  split; [reflexivity|]. split; [exact Hq|]. split; [exact He|]. reflexivity.
Defined.

End Instances.
